(** * DeLTA processing pipeline ([delta/pipeline.py]): regions, tracking, lineage

    A shallow embedding of the per-region engine of [delta/pipeline.py]
    ([ROI], [Position]) together with the helpers of [delta.utilities] that
    it calls.  The utilities module is not part of the sources at hand: each
    helper that a statement depends on is either taken as a parameter of a
    section, or modelled from the specification in a definition marked
    "Modelled from the spec". *)

From Stdlib Require Import QArith Qminmax.
From stdpp Require Import base option list strings pretty gmap fin_maps.

Set Default Proof Using "Type".
Open Scope nat_scope.

(* ===================================================================== *)
(** * Part I: definitions *)
(* ===================================================================== *)

(** ** Two-dimensional arrays as lists of rows *)

Module Arrays.

Section Array2D.
Context {A : Type}.

(** [l[a:b]] for [0 <= a], as Python slices it: out-of-range bounds are
    clipped, never an error. *)
Definition slice {X : Type} (a b : nat) (l : list X) : list X :=
  take (b - a) (drop a l).

(** [img.shape] of a 2D array held as a list of rows. *)
Definition shape (img : list (list A)) : nat * nat :=
  (length img, length (default [] (head img))).

(** Every row has [w] entries. *)
Definition rectangular (w : nat) (img : list (list A)) : Prop :=
  Forall (λ row, length row = w) img.

(** [img[r, c]]: [None] where Python raises [IndexError]. *)
Definition get2 (img : list (list A)) (r c : nat) : option A :=
  img !! r ≫= (.!! c).

(** [img[y0:y1, x0:x1]]. *)
Definition crop (img : list (list A)) (wy wx : nat * nat) : list (list A) :=
  slice wx.1 wx.2 <$> slice wy.1 wy.2 img.

(** [cv[y0:y1, x0:x1] = tile[:y1-y0, :x1-x0]], the slice assignment of numpy
    on a canvas large enough to hold the window.  (numpy raises on a shape
    mismatch; the tiles written here always have full size.) *)
Definition write (cv tile : list (list A)) (wy wx : nat * nat) : list (list A) :=
  list_inserts wy.1
    (zip_with (λ trow crow, list_inserts wx.1 (take (wx.2 - wx.1) trow) crow)
       (take (wy.2 - wy.1) tile) (slice wy.1 wy.2 cv))
    cv.

End Array2D.

End Arrays.

(** ** Window tiling and stitching ([utils.create_windows], [utils.stitch_pic]) *)

Module Windows.
Import Arrays.

(** Modelled from the spec: the placements of [utils.create_windows] along one
    axis, missing from the sources.  "an ordered sequence of tiles fully
    covering the image, including partial tiles at the trailing edge";
    "tiling must be non-overlapping by construction".  An axis of [n] pixels
    cut at tile size [t] gives the windows [(0,t), (t,2t), ...], the last one
    ending at [n]: its start is the placement, and its end bounds the valid
    region of the tile. *)
Definition windows (n t : nat) : list (nat * nat) :=
  (λ k, (k * t, (k * t + t) `min` n)) <$> seq 0 ((n + t - 1) / t).

(** A window of the tiling lies inside an [H] x [W] picture and spans at
    most one tile. *)
Definition fits (H W th tw : nat) (w : (nat * nat) * (nat * nat)) : Prop :=
  w.1.2 ≤ H ∧ w.2.2 ≤ W ∧ w.1.2 - w.1.1 ≤ th ∧ w.2.2 - w.2.1 ≤ tw.

(** Pixel [(r, c)] lies in the window. *)
Definition inside (r c : nat) (w : (nat * nat) * (nat * nat)) : Prop :=
  (w.1.1 ≤ r < w.1.2) ∧ (w.2.1 ≤ c < w.2.2).

Section Tiles.
Context {A : Type} (zero : A).

(** Modelled from the spec: the padding of [utils.create_windows] on one
    row, [np.pad] with [zero] up to [n] entries. *)
Definition pad_row (n : nat) (row : list A) : list A :=
  row ++ replicate (n - length row) zero.

(** Modelled from the spec: zero-padding of a partial tile to the full
    [th] x [tw] size ("partial tiles are zero-padded to full size, never
    cropped short"). *)
Definition pad_tile (th tw : nat) (tile : list (list A)) : list (list A) :=
  (pad_row tw <$> tile) ++ replicate (th - length tile) (replicate tw zero).

(** Modelled from the spec: [utils.create_windows(img, target_size)], missing
    from the sources; it returns the batch of tiles with the windows along
    y and along x, as [ROI.get_segmentation_inputs] unpacks them
    ([x, windows_y, windows_x]).  Tiles come in row-major order. *)
Definition create_windows (img : list (list A)) (target_size : nat * nat)
  : list (list (list A)) * list (nat * nat) * list (nat * nat) :=
  let windows_y := windows (shape img).1 target_size.1 in
  let windows_x := windows (shape img).2 target_size.2 in
  ((λ w, pad_tile target_size.1 target_size.2 (crop img w.1 w.2))
     <$> list_prod windows_y windows_x,
   windows_y, windows_x).

(** Modelled from the spec: the extent of the picture that
    [utils.stitch_pic] rebuilds along an axis, the end of the last window
    recorded for it. *)
Definition extent (ws : list (nat * nat)) : nat :=
  default 0 (snd <$> last ws).

(** Modelled from the spec: [utils.stitch_pic(results, loc_y, loc_x)], missing
    from the sources; "reconstruct a full-resolution output by writing each
    tile's valid (non-padding) region into its recorded placement".  The
    canvas starts as zeros and the tiles are written in order. *)
Definition stitch_pic (results : list (list (list A)))
    (loc_y loc_x : list (nat * nat)) : list (list A) :=
  foldl (λ cv tw, write cv tw.1 tw.2.1 tw.2.2)
    (replicate (extent loc_y) (replicate (extent loc_x) zero))
    (zip results (list_prod loc_y loc_x)).

End Tiles.

End Windows.

(** ** Python methods: state passing with exceptions *)

Module Py.

(** The exceptions the modelled code can raise. *)
Inductive exn : Type :=
| RuntimeError (msg : string)
| IndexError                      (* a list indexed out of range *)
| AttributeError                  (* an attribute that was never set *)
| TypeError.                      (* [None] where an array or a tuple is needed *)

Inductive outcome (T : Type) : Type :=
| Returned (v : T)
| Raised (e : exn).
Global Arguments Returned {T} v.
Global Arguments Raised {T} e.

(** A method on a state [S]: it returns or raises, and leaves a state
    behind in both cases (what was mutated before a [raise] stays). *)
Definition M (S T : Type) : Type := S → outcome T * S.

Global Instance ret {S : Type} : MRet (M S) := λ T v s, (Returned v, s).

Global Instance bind {S : Type} : MBind (M S) := λ T U k m s,
  match m s with
  | (Returned v, s') => k v s'
  | (Raised e, s') => (Raised e, s')
  end.

Definition raise {S T : Type} (e : exn) : M S T := λ s, (Raised e, s).
Definition get {S : Type} : M S S := λ s, (Returned s, s).
Definition modify {S : Type} (f : S → S) : M S unit := λ s, (Returned tt, f s).

(** [l[i]] *)
Definition index {S T : Type} (l : list T) (i : nat) : M S T :=
  match l !! i with Some v => mret v | None => raise IndexError end.

(** [l[i]] handed to a function that needs an array: the placeholder [None]
    makes cv2 and numpy raise. *)
Definition array {S T : Type} (l : list (option T)) (i : nat) : M S T :=
  v ← index l i; match v with Some a => mret a | None => raise TypeError end.

(** [for x in xs: body(x)] *)
Fixpoint for_each {S X : Type} (body : X → M S unit) (xs : list X) : M S unit :=
  match xs with
  | [] => mret tt
  | x :: xs => body x;; for_each body xs
  end.

(** [acc = init; for x in xs: acc = body(acc, x)] *)
Fixpoint for_fold {S X B : Type} (body : B → X → M S B) (acc : B)
    (xs : list X) : M S B :=
  match xs with
  | [] => mret acc
  | x :: xs => acc ← body acc x; for_fold body acc xs
  end.

(** [[f(x) for x in xs]] *)
Fixpoint collect {S X Y : Type} (f : X → M S Y) (xs : list X) : M S (list Y) :=
  match xs with
  | [] => mret []
  | x :: xs => y ← f x; ys ← collect f xs; mret (y :: ys)
  end.

(** A method of a component run on the state that owns it. *)
Definition zoom {S C T : Type} (proj : S → C) (inj : C → S → S)
    (m : M C T) : M S T :=
  λ s, let '(r, c) := m (proj s) in (r, inj c s).

(** The method never raises a [RuntimeError]. *)
Definition no_runtime_error {S T : Type} (m : M S T) : Prop :=
  ∀ s msg, (m s).1 ≠ Raised (RuntimeError msg).

End Py.

(** ** Lineage graph ([utils.Lineage]) *)

Module Lineage.
Import Py.

(** The pole geometry of a cell: its pole points. *)
Definition Pole : Type := list (Z * Z).

(** A stored measurement: a number, or the edge string of a cell. *)
Inductive value : Type :=
| Num (q : Q)
| Str (s : string).

(** Modelled from the spec: an entry of a frame's cell-to-parent attribution
    list, "one entry per live cell at that frame, holding either None
    (orphan) or the parent's cell id from the previous frame". *)
Record entry : Type := Entry {
  cell : nat;
  parent : option nat;
  pole : Pole
}.

(** Modelled from the spec: the Lineage Graph of [utils.Lineage], missing
    from the sources.  "an ordered sequence (indexed by frame) of
    cell-to-parent attribution lists" ([stack]); "cell ids are monotonically
    assigned per region and never reused" ([ncells], the ids [1 .. ncells]
    are taken); "the sparse attribute mapping", one measurement per key
    (cell id, frame, feature name) ([values]). *)
Record t : Type := Lineage {
  stack : list (list entry);
  ncells : nat;
  values : gmap (nat * nat * string) value
}.

(** Modelled from the spec: [utils.Lineage()], no frame, no cell, no
    measurement. *)
Definition empty : t := {| stack := []; ncells := 0; values := ∅ |}.

(** [lineage.cellnumbers]: per frame, the ids of the live cells. *)
Definition cellnumbers (l : t) : list (list nat) :=
  (λ es : list entry, cell <$> es) <$> stack l.

(** The attribution list of a frame; empty when the frame has none yet. *)
Definition entries (frame : nat) (l : t) : list entry :=
  default [] (stack l !! frame).

(** Modelled from the spec: the sequence of [utils.Lineage] is "indexed by
    frame"; the list of a frame is created, empty, when the sequence does
    not reach it yet. *)
Definition ensure_frame (frame : nat) (l : t) : t :=
  {| stack := stack l ++ replicate (S frame - length (stack l)) [];
     ncells := ncells l;
     values := values l |}.

(** Modelled from the spec: "appends an entry at frame" in [utils.Lineage]. *)
Definition append_entry (frame : nat) (e : entry) (l : t) : t :=
  {| stack := alter (λ es, es ++ [e]) frame (stack (ensure_frame frame l));
     ncells := ncells l;
     values := values l |}.

(** Modelled from the spec: "registerOrphan(frame, poleGeometry) creates a
    new cell id, appends an orphan entry at frame". *)
Definition registerOrphan (frame : nat) (p : Pole) (l : t) : t :=
  let id := S (ncells l) in
  append_entry frame (Entry id None p)
    {| stack := stack l; ncells := id; values := values l |}.

(** Modelled from the spec: a child of a division in [utils.Lineage], with
    an id of its own ("create two distinct child ids"), pointing to its
    parent. *)
Definition registerChild (parentId frame : nat) (p : Pole) (l : t) : t :=
  let id := S (ncells l) in
  append_entry frame (Entry id (Some parentId) p)
    {| stack := stack l; ncells := id; values := values l |}.

(** Modelled from the spec: "registerAttribution(parentId, frame, childIds,
    poleGeometry[]) appends one entry per child at frame, each pointing to
    parentId; if childIds has length > 1 this records a division (one parent,
    multiple children, all valid siblings)".  In a division the graph
    creates a new id for every child ("must create two distinct child ids
    both referencing parent"; "producing ids 2 and 3 as children of 1, id 1
    absent from frame 1's live set").  A single child is the tracked cell
    itself and keeps the id ("a cell id appearing at frame f must have a
    corresponding entry at every frame up to the last frame it was
    tracked").  No child: the cell is lost, nothing is appended. *)
Definition registerAttribution (parentId frame : nat)
    (children : list (nat * Pole)) (l : t) : t :=
  match children with
  | [(_, p)] => append_entry frame (Entry parentId (Some parentId) p) l
  | _ => foldl (λ l np, registerChild parentId frame np.2 l) l children
  end.

(** Modelled from the spec: [lineage.update(cell, frame, attrib, poles)] as
    [ROI] calls it.  [cell] is [None] for orphans, or the index of the old
    cell in the previous frame, whose id is the parent; [attrib] holds the
    indices of the new cells and [poles] their poles, in the same order. *)
Definition update (cell : option nat) (frame : nat) (attrib : list nat)
    (poles : list Pole) : M t unit :=
  match cell with
  | None =>
      modify (λ l, foldl (λ l np, registerOrphan frame np.2 l)
                     (ensure_frame frame l) (zip attrib poles))
  | Some o =>
      l ← get;
      prev ← (match frame with
              | 0 => raise IndexError
              | S f => index (cellnumbers l) f
              end);
      parentId ← index prev o;
      modify (λ l, registerAttribution parentId frame (zip attrib poles)
                     (ensure_frame frame l))
  end.

(** Modelled from the spec: "setFeature(cellId, frame, featureName, value)
    stores a single sparse measurement; overwrites silently if called twice
    for the same key" ([lineage.setvalue] in the sources). *)
Definition setvalue (cellId frame : nat) (feature : string) (v : value)
    (l : t) : t :=
  {| stack := stack l;
     ncells := ncells l;
     values := <[(cellId, frame, feature) := v]> (values l) |}.

(** Modelled from the spec: the measurement stored under a key of
    [utils.Lineage], if any. *)
Definition getvalue (cellId frame : nat) (feature : string) (l : t)
  : option value :=
  values l !! (cellId, frame, feature).

(** *** Invariants of a frame under construction

    They speak of the ids taken so far ([ncells]) and of the entries of the
    frame; [N0] is the number of ids taken before the frame was started. *)

(** The ids recorded in the frame have been taken. *)
Definition ids_taken (N0 n : nat) (es : list entry) : Prop :=
  N0 ≤ n ∧ Forall (λ e, cell e ≤ n) es.

(** [c] is an id created for this frame, recorded as a child of [pid] and
    of no other parent. *)
Definition child_of (N0 pid c n : nat) (es : list entry) : Prop :=
  N0 < c ≤ n
  ∧ (∃ p, Entry c (Some pid) p ∈ es)
  ∧ (∀ e, e ∈ es → cell e = c → parent e = Some pid).

(** The invariant survives the three ways an entry is appended: an orphan
    or a child with the next id, or a tracked cell that keeps an id taken
    before the frame was started. *)
Definition keeps (N0 : nat) (I : nat → list entry → Prop) : Prop :=
  (∀ n es p, I n es → I (S n) (es ++ [Entry (S n) None p]))
  ∧ (∀ n es pid p, I n es → I (S n) (es ++ [Entry (S n) (Some pid) p]))
  ∧ (∀ n es pid p, pid ≤ N0 → I n es →
       I n (es ++ [Entry pid (Some pid) p])).

End Lineage.

(** ** Tracking assigner ([utils.getAttributions]) *)

Module Tracking.

(** The threshold [τ = 0.5]. *)
Definition tau : Q := 1 # 2.

(** Modelled from the spec: [utils.getAttributions(scores)], missing from the
    sources.  "threshold every entry at τ = 0.5; build a binary attribution
    matrix A where A[o][n] = 1 iff S[o][n] > τ".  Scores are finite floats,
    held as rationals; the comparison is exact on both. *)
Definition getAttributions (scores : list (list Q)) : list (list Z) :=
  (λ r : list Q, (λ s, if Qlt_le_dec tau s then 1%Z else 0%Z) <$> r) <$> scores.

(** [row.nonzero()[0]]: the indices of the entries that are not zero. *)
Definition nonzero (row : list Z) : list nat :=
  fst <$> filter (λ iv, iv.2 ≠ 0%Z) (imap pair row).

(** [A[o, :]] *)
Definition row (A : list (list Z)) (o : nat) : list Z := default [] (A !! o).

(** [A[:, n]] of a rectangular matrix. *)
Definition column (A : list (list Z)) (n : nat) : list Z :=
  (λ r, default 0%Z (r !! n)) <$> A.

End Tracking.

(** ** Regions of interest (class [ROI]) *)

Module ROI.
Import Py Arrays Windows Tracking.

(** Images hold floats in [0, 1], kept as rationals; masks and label maps
    hold small integers. *)
Definition Img : Type := list (list Q).
Definition Mask : Type := list (list nat).
Definition Labels : Type := list (list nat).
Definition Contour : Type := list (Z * Z).

(** [dict(xtl=, ytl=, xbr=, ybr=)]; a bound may be [None]. *)
Record Box : Type := {
  xtl : option Z;
  ytl : option Z;
  xbr : option Z;
  ybr : option Z
}.

(** The attributes set by [ROI.__init__]. *)
Record t : Type := {
  roi_nb : nat;
  box : Box;
  img_stack : list Img;
  seg_stack : list (option Mask);
  lineage : Lineage.t;
  label_stack : list (option Labels);
  crop_windows : bool;
  verbose : nat;
  scaling : option (Q * Q)
}.

Definition set_img_stack (v : list Img) (r : t) : t :=
  {| roi_nb := roi_nb r; box := box r; img_stack := v;
     seg_stack := seg_stack r; lineage := lineage r;
     label_stack := label_stack r; crop_windows := crop_windows r;
     verbose := verbose r; scaling := scaling r |}.

Definition set_seg_stack (v : list (option Mask)) (r : t) : t :=
  {| roi_nb := roi_nb r; box := box r; img_stack := img_stack r;
     seg_stack := v; lineage := lineage r;
     label_stack := label_stack r; crop_windows := crop_windows r;
     verbose := verbose r; scaling := scaling r |}.

Definition set_lineage (v : Lineage.t) (r : t) : t :=
  {| roi_nb := roi_nb r; box := box r; img_stack := img_stack r;
     seg_stack := seg_stack r; lineage := v;
     label_stack := label_stack r; crop_windows := crop_windows r;
     verbose := verbose r; scaling := scaling r |}.

(** The helpers of [delta.utilities], of cv2 and the constants of [cfg]
    that [ROI] calls and that are not part of the sources: image
    processing, taken as given.  [X] is the 4-channel tracking input of one
    cell. *)
Record utilities (X : Type) : Type := {
  cropbox : Img → Box → Img;
  rangescale : Img → Img;
  resize : Img → nat * nat → Img;
  opencv_areafilt : Mask → Mask;
  label_seg : Mask → Labels;
  getpoles : Mask → option Labels → option (Q * Q) → list Lineage.Pole;
  getTrackingScores :
    Labels → list Img → option (list (Box * Box)) → option (list (list Q));
  findContours : Mask → list Contour;
  tracking_input : bool → Img → Img → Mask → Contour → X * (Box * Box);
  target_size_seg : nat * nat
}.
Global Arguments cropbox {X} _.
Global Arguments rangescale {X} _.
Global Arguments resize {X} _.
Global Arguments opencv_areafilt {X} _.
Global Arguments label_seg {X} _.
Global Arguments getpoles {X} _.
Global Arguments getTrackingScores {X} _.
Global Arguments findContours {X} _.
Global Arguments tracking_input {X} _.
Global Arguments target_size_seg {X} _.

(** [(y > .5).astype(np.uint8)] *)
Definition binarize (y : Img) : Mask :=
  (λ r : list Q, (λ q, if Qlt_le_dec (1 # 2) q then 1 else 0) <$> r) <$> y.

(** ["Segmentation incomplete - frame %d" % (frame,)] *)
Definition segmentation_incomplete (frame : nat) : exn :=
  RuntimeError ("Segmentation incomplete - frame " +:+ pretty frame).

(** The test of [get_tracking_inputs] for "no previous cells to track
    from": [frame == 0 or len(cellnumbers) < frame or
    len(cellnumbers[frame-1]) == 0].  The last lookup is only reached in
    range. *)
Definition no_previous_cells (cellnumbers : list (list nat)) (frame : nat)
  : bool :=
  bool_decide (frame = 0)
  || bool_decide (length cellnumbers < frame)
  || match cellnumbers !! (frame - 1) with
     | Some cs => bool_decide (length cs = 0)
     | None => false
     end.

(** The extension and store at the end of [process_segmentation_outputs]:
    [seg_stack += [None for _ in range(frame+1-len(seg_stack))]] when
    [len(seg_stack) <= frame], then [seg_stack[frame] = y]; [append] when
    no frame is given. *)
Definition store_mask (frame : option nat) (y : Mask)
    (seg : list (option Mask)) : list (option Mask) :=
  match frame with
  | None => seg ++ [Some y]
  | Some frame =>
      let seg := if bool_decide (length seg ≤ frame)
                 then seg ++ replicate (frame + 1 - length seg) None
                 else seg in
      <[frame := Some y]> seg
  end.

(** The stitching step of [process_segmentation_outputs]: [y[0,:,:,0]], or
    [utils.stitch_pic(y[...,0], windows[0], windows[1])]. *)
Definition stitch_outputs (y : list Img)
    (windows : option (list (nat * nat) * list (nat * nat))) : option Img :=
  match windows with
  | None => y !! 0
  | Some w => Some (stitch_pic 0%Q y w.1 w.2)
  end.

(** The bodies of the two loops of [process_tracking_outputs] where every
    lookup succeeds: what the [o]-th old cell, with its id read in [prev],
    and the [n]-th new cell add to the lineage. *)
Definition poles_of (poles : list Lineage.Pole) (attrib : list nat)
  : list Lineage.Pole :=
  (λ n, default ([] : Lineage.Pole) (poles !! n)) <$> attrib.

Definition old_cell_step (A : list (list Z)) (poles : list Lineage.Pole)
    (prev : list nat) (frame o : nat) (l : Lineage.t) : Lineage.t :=
  let attrib := nonzero (row A o) in
  Lineage.registerAttribution (default 0 (prev !! o)) frame
    (zip attrib (poles_of poles attrib)) (Lineage.ensure_frame frame l).

Definition new_cell_step (A : list (list Z)) (poles : list Lineage.Pole)
    (frame n : nat) (l : Lineage.t) : Lineage.t :=
  if bool_decide (length (nonzero (column A n)) = 0)
  then Lineage.registerOrphan frame (default ([] : Lineage.Pole) (poles !! n))
         (Lineage.ensure_frame frame l)
  else l.

Section Methods.
Context {X : Type} (utils : utilities X).

Definition on_lineage {T : Type} (m : M Lineage.t T) : M t T :=
  zoom lineage set_lineage m.

(** [ROI.get_segmentation_inputs(img)] *)
Definition get_segmentation_inputs (img : Img)
  : M t (list Img * option (list (nat * nat) * list (nat * nat))) :=
  roi ← get;
  let i := rangescale utils (cropbox utils img (box roi)) in
  modify (λ roi, set_img_stack (img_stack roi ++ [i]) roi);;
  if crop_windows roi then
    let cw := create_windows 0%Q i (target_size_seg utils) in
    mret (cw.1.1, Some (cw.1.2, cw.2))
  else
    let dsize := ((target_size_seg utils).2, (target_size_seg utils).1) in
    mret ([resize utils i dsize], None).

(** [ROI.process_segmentation_outputs(y, frame, windows)] *)
Definition process_segmentation_outputs (y : list Img) (frame : option nat)
    (windows : option (list (nat * nat) * list (nat * nat))) : M t unit :=
  y ← (match stitch_outputs y windows with
       | Some y => mret y
       | None => raise IndexError
       end);
  let y := binarize y in
  roi ← get;
  i0 ← index (img_stack roi) 0;
  let y := crop y (0, (shape i0).1) (0, (shape i0).2) in
  let y := opencv_areafilt utils y in
  modify (λ roi, set_seg_stack (store_mask frame y (seg_stack roi)) roi).

(** [ROI.get_tracking_inputs(frame)] *)
Definition get_tracking_inputs (frame : option nat)
  : M t (option (list X) * option (list (Box * Box))) :=
  roi ← get;
  let frame := default (length (Lineage.cellnumbers (lineage roi))) frame in
  if bool_decide (length (seg_stack roi) ≤ frame) then
    raise (segmentation_incomplete frame)
  else if no_previous_cells (Lineage.cellnumbers (lineage roi)) frame then
    mask ← array (seg_stack roi) frame;
    let poles := getpoles utils mask None (scaling roi) in
    on_lineage
      (for_each (λ c, p ← index poles c; Lineage.update None frame [c] [p])
         (seq 0 (length poles)));;
    mret (None, None)
  else
    prev_mask ← array (seg_stack roi) (frame - 1);
    let cells := findContours utils prev_mask in
    xb ← collect
           (λ cell,
              curr_img ← index (img_stack roi) frame;
              prev_img ← index (img_stack roi) (frame - 1);
              seg ← array (seg_stack roi) frame;
              mret (tracking_input utils (crop_windows roi)
                      curr_img prev_img seg cell))
           cells;
    mret (Some (fst <$> xb), Some (snd <$> xb)).

(** The two loops of [process_tracking_outputs] that update the lineage
    from the attribution matrix [A], with the poles of the new cells. *)
Definition update_lineage (A : list (list Z)) (poles : list Lineage.Pole)
    (frame : nat) : M Lineage.t unit :=
  for_each
    (λ o, let attrib := nonzero (row A o) in
          new_cells_poles ← collect (index poles) attrib;
          Lineage.update (Some o) frame attrib new_cells_poles)
    (seq 0 (shape A).1);;
  for_each
    (λ n, let attrib := nonzero (column A n) in
          p ← index poles n;
          if bool_decide (length attrib = 0)
          then Lineage.update None frame [n] [p]
          else mret tt)
    (seq 0 (shape A).2).

(** [ROI.process_tracking_outputs(y, frame, boxes)] *)
Definition process_tracking_outputs (y : list Img) (frame : option nat)
    (boxes : option (list (Box * Box))) : M t unit :=
  roi ← get;
  let frame := default (length (Lineage.cellnumbers (lineage roi))) frame in
  mask ← array (seg_stack roi) frame;
  let labels := label_seg utils mask in
  match getTrackingScores utils labels y
          (if crop_windows roi then boxes else None) with
  | None => on_lineage (Lineage.update None frame [] [])
  | Some scores =>
      let attributions := getAttributions scores in
      let poles := getpoles utils mask (Some labels) (scaling roi) in
      on_lineage (update_lineage attributions poles frame)
  end.

End Methods.

(** The morphological features of one cell in [extract_features]:
    [rotrect] is the size pair of [cv2.minAreaRect(cnt)], [area] is
    [cv2.contourArea(cnt)] and [perimeter] is [cnt.shape[0]]. *)
Definition morphological_features (features : list string) (cell frame : nat)
    (rotrect : Q * Q) (area : Q) (perimeter : nat) (l : Lineage.t)
  : Lineage.t :=
  let l :=
    if bool_decide ("length" ∈ features) || bool_decide ("width" ∈ features)
    then
      let l := if bool_decide ("length" ∈ features)
               then Lineage.setvalue cell frame "length"
                      (Lineage.Num (Qmax rotrect.1 rotrect.2)) l
               else l in
      if bool_decide ("width" ∈ features)
      then Lineage.setvalue cell frame "width"
             (Lineage.Num (Qmin rotrect.1 rotrect.2)) l
      else l
    else l in
  let l := if bool_decide ("area" ∈ features)
           then Lineage.setvalue cell frame "area" (Lineage.Num area) l
           else l in
  if bool_decide ("perimeter" ∈ features)
  then Lineage.setvalue cell frame "perimeter"
         (Lineage.Num (inject_Z (Z.of_nat perimeter))) l
  else l.

End ROI.

(** ** Drift corrector ([utils.driftcorr]) *)

Module Drift.

Section Corrector.
Context {Frame Template SearchBox : Type}.

(** The image matching behind the corrector, taken as given: the shifts
    searched for a frame inside the search box, the score of the template
    at a shift, the minimal confidence, and the re-sampling of a frame. *)
Context (candidates : Template → SearchBox → Frame → list (Z * Z))
  (score : Template → Frame → Z * Z → Q)
  (min_confidence : Q)
  (shift : Frame → Z * Z → Frame).

(** Modelled from the spec: the "best-fit" translation of [utils.driftcorr],
    the first shift of best score. *)
Definition best_match (scored : list ((Z * Z) * Q)) : option ((Z * Z) * Q) :=
  foldl (λ best c, match best with
                   | Some b => if Qlt_le_dec b.2 c.2 then Some c else Some b
                   | None => Some c
                   end) None scored.

(** Modelled from the spec: the Drift Corrector on one frame, missing from
    the sources.  "produce a best-fit 2D integer translation relative to the
    reference, and the frame re-sampled"; "if no configuration of shift
    scores above a minimal confidence, the corrector must fail soft by
    returning zero translation rather than raising"; "logged but non-fatal":
    the boolean is the warning. *)
Definition correct_frame (template : Template) (box : SearchBox)
    (frame : Frame) : Frame * (Z * Z) * bool :=
  let scored := (λ s, (s, score template frame s))
                  <$> candidates template box frame in
  match best_match scored with
  | Some (s, q) =>
      if Qlt_le_dec min_confidence q
      then (shift frame s, s, false)
      else (shift frame (0, 0)%Z, (0, 0)%Z, true)
  | None => (shift frame (0, 0)%Z, (0, 0)%Z, true)
  end.

(** Modelled from the spec: [utils.driftcorr(frames, template, box)], missing
    from the sources.  "translations for a batch of frames are independent
    per-frame best matches against the same fixed template".  It returns the
    corrected frames and the drift values [[xdrift, ydrift]], as
    [Position.segment] unpacks them; the third component lists the frames
    that were warned about. *)
Definition driftcorr (frames : list Frame) (template : Template)
    (box : SearchBox) : list Frame * (list Z * list Z) * list nat :=
  let corrected := correct_frame template box <$> frames in
  (fst ∘ fst <$> corrected,
   (fst ∘ snd ∘ fst <$> corrected, snd ∘ snd ∘ fst <$> corrected),
   fst <$> filter (λ kc, kc.2.2 = true) (imap pair corrected)).

End Corrector.

End Drift.

(** ** Positions (class [Position]) *)

Module Position.
Import Py.

(** The values of the attributes of a [Position]. *)
Inductive attr : Type :=
| PyNone
| PyInt (z : Z)
| PyBool (b : bool)
| PyNum (q : Q)
| PyStrs (ss : list string)
| PyObject (name : string)              (* the reader, the models *)
| PyRois (rois : list ROI.t)
| PyDrift (xs ys : list Z)
| PyImage (img : ROI.Img)
| PyBox (b : ROI.Box).

(** [Position.__init__]: the instance dictionary [__dict__]. *)
Definition init (position_nb : nat) (drift_correction crop_windows : bool)
  : gmap string attr :=
  list_to_map
    [("position_nb", PyInt (Z.of_nat position_nb));
     ("reader", PyObject "reader");
     ("models", PyObject "models");
     ("rois", PyRois []);
     ("drift_values", PyDrift [] []);
     ("drift_correction", PyBool drift_correction);
     ("crop_windows", PyBool crop_windows);
     ("verbose", PyInt 1);
     ("_preprocessed", PyBool false);
     ("_pickle_skip", PyStrs ["reader"; "models"; "_pickle_skip"])].

(** [self.name] *)
Definition getattr (name : string) : M (gmap string attr) attr :=
  d ← @get (gmap string attr);
  match d !! name with Some v => mret v | None => raise AttributeError end.

(** [self.name = v] *)
Definition setattr (name : string) (v : attr) : M (gmap string attr) unit :=
  modify (λ d, <[name := v]> d).

(** [k in t] for a tuple of strings [t] *)
Definition contains {S : Type} (k : string) (t : attr) : M S bool :=
  match t with
  | PyStrs ss => mret (bool_decide (k ∈ ss))
  | _ => raise TypeError
  end.

(** [Position.__getstate__()], called by [pickle.dump(self, ...)] in
    [Position.save]. *)
Definition getstate : M (gmap string attr) (gmap string attr) :=
  d ← @get (gmap string attr);
  for_fold
    (λ (state : gmap string attr) (kv : string * attr),
       skip ← getattr "_pickle_skip";
       b ← contains kv.1 skip;
       mret (<[kv.1 := if (b : bool) then PyNone else kv.2]> state))
    (∅ : gmap string attr) (map_to_list d).

(** [Position.load(filename)], where [p] is the [__dict__] of the position
    that [utils.load_position(filename)] unpickles. *)
Definition load (p : gmap string attr) : M (gmap string attr) unit :=
  for_each
    (λ kv : string * attr,
       skip ← getattr "_pickle_skip";
       b ← contains kv.1 skip;
       if (b : bool) then mret tt else setattr kv.1 kv.2)
    (map_to_list p).

(** [Position.clear()] (the message it prints first is left out).  The keys
    are visited in the order of the map; with [_pickle_skip] among the
    skipped names, as [__init__] sets it, the order makes no difference. *)
Definition clear : M (gmap string attr) unit :=
  d ← @get (gmap string attr);
  for_each
    (λ k : string,
       skip ← getattr "_pickle_skip";
       b ← contains k skip;
       if (b : bool) then mret tt else setattr k PyNone)
    (map_to_list d).*1.

(** The lineage graphs and label maps held in memory by the regions of a
    position; [None] when the position holds no regions. *)
Definition durable_state (d : gmap string attr)
  : option (list (Lineage.t * list (option ROI.Labels))) :=
  match d !! "rois" with
  | Some (PyRois rois) =>
      Some ((λ r, (ROI.lineage r, ROI.label_stack r)) <$> rois)
  | _ => None
  end.

(** The image and mask history held in memory by the regions. *)
Definition bulk_state (d : gmap string attr)
  : option (list (list ROI.Img * list (option ROI.Mask))) :=
  match d !! "rois" with
  | Some (PyRois rois) =>
      Some ((λ r, (ROI.img_stack r, ROI.seg_stack r)) <$> rois)
  | _ => None
  end.

(** The truth value of an attribute in an [if]. *)
Definition truthy (v : attr) : bool :=
  match v with
  | PyNone => false
  | PyBool b => b
  | PyInt z => bool_decide (z ≠ 0%Z)
  | PyStrs ss => bool_decide (ss ≠ [])
  | PyRois rois => bool_decide (rois ≠ [])
  | _ => true
  end.

(** The reading of [clear] under which only the image and mask history is
    released: the lineage graphs and the label maps of the regions stay in
    memory. *)
Definition clear_keeps_durable_state (d : gmap string attr) : Prop :=
  durable_state (clear d).2 = durable_state d.

Section Segment.
Context (candidates : attr → attr → ROI.Img → list (Z * Z))
  (score : attr → ROI.Img → Z * Z → Q)
  (min_confidence : Q)
  (shift : ROI.Img → Z * Z → ROI.Img).

(** The drift correction of [Position.segment]:
    [if self.drift_correction: trans_frames, self.drift_values =
    utils.driftcorr(trans_frames, template=self.drifttemplate,
    box=self.driftcorbox)].  The frames warned about are returned with the
    corrected frames. *)
Definition correct_drift (trans_frames : list ROI.Img)
  : M (gmap string attr) (list ROI.Img * list nat) :=
  on ← getattr "drift_correction";
  if truthy on then
    template ← getattr "drifttemplate";
    box ← getattr "driftcorbox";
    let r := Drift.driftcorr candidates score min_confidence shift
               trans_frames template box in
    setattr "drift_values" (PyDrift r.1.2.1 r.1.2.2);;
    mret (r.1.1, r.2)
  else mret (trans_frames, []).

End Segment.

End Position.

(** ** A small region and position to run the methods on *)

Module Demo.
Import ROI.

Definition nobox : Box := {| xtl := None; ytl := None; xbr := None; ybr := None |}.

(** Helpers that leave images as they are; two cells are found in every
    mask, and the tracking scores attribute the one old cell to both. *)
Definition utils : utilities nat := {|
  cropbox := λ img _, img;
  rangescale := λ img, img;
  resize := λ img _, img;
  opencv_areafilt := λ mask, mask;
  label_seg := λ mask, mask;
  getpoles := λ _ _ _, [[(0, 0); (0, 2)]; [(2, 0); (2, 2)]]%Z;
  getTrackingScores := λ _ _ _, Some [[9 # 10; 9 # 10]]%Q;
  findContours := λ _, [];
  tracking_input := λ _ _ _ _ _, (0, (nobox, nobox));
  target_size_seg := (2, 2)
|}.

Definition img : Img :=
  [[1 # 10; 2 # 10; 9 # 10]; [1 # 10; 1 # 10; 1 # 10]; [8 # 10; 2 # 10; 9 # 10]]%Q.

Definition mask0 : Mask := [[0; 0; 0]; [1; 1; 1]; [0; 0; 0]].
Definition mask1 : Mask := [[1; 0; 1]; [0; 0; 0]; [1; 0; 1]].

(** One cell, an orphan with id 1, tracked at frame 0; two frames are
    segmented. *)
Definition roi : ROI.t := {|
  roi_nb := 0;
  box := nobox;
  img_stack := [img; img];
  seg_stack := [Some mask0; Some mask1];
  lineage := {| Lineage.stack := [[Lineage.Entry 1 None [(1, 0); (1, 2)]%Z]];
                Lineage.ncells := 1;
                Lineage.values := ∅ |};
  label_stack := [];
  crop_windows := true;
  verbose := 1;
  scaling := None
|}.

(** A position that holds the region, with a drift template. *)
Definition position : gmap string Position.attr :=
  <["rois" := Position.PyRois [roi]]>
    (<["drifttemplate" := Position.PyImage img]>
       (<["driftcorbox" := Position.PyBox nobox]> (Position.init 0 true true))).

(** A search over two shifts that never matches well. *)
Definition candidates (_ _ : Position.attr) (_ : Img) : list (Z * Z) :=
  [(1, 0); (0, 1)]%Z.
Definition score (_ : Position.attr) (_ : Img) (_ : Z * Z) : Q := 1 # 10.
Definition min_confidence : Q := 1 # 2.
Definition shift (frame : Img) (_ : Z * Z) : Img := frame.

End Demo.

(** ** Label maps and edges of [ROI.extract_features] *)

Module Features.
Import Py Arrays ROI.

Definition set_label_stack (v : list (option Labels)) (r : ROI.t) : ROI.t :=
  {| roi_nb := roi_nb r; box := box r; img_stack := img_stack r;
     seg_stack := seg_stack r; lineage := lineage r;
     label_stack := v; crop_windows := crop_windows r;
     verbose := verbose r; scaling := scaling r |}.

(** The helpers behind the label maps, taken as given:
    [utils.label_seg(seg, cell_nbs)] and
    [cv2.resize(labels, size, interpolation=cv2.INTER_NEAREST)]. *)
Record utilities : Type := {
  label_seg_cells : Mask → list nat → Labels;
  resize_nearest : Labels → Z * Z → Labels
}.

(** [a - b] on two bounds of a box; [None] is no number. *)
Definition minus {S : Type} (a b : option Z) : M S Z :=
  match a, b with
  | Some a, Some b => mret (a - b)%Z
  | _, _ => raise TypeError
  end.

(** The cell numbers handed to [label_seg]: none when the lineage does not
    reach the frame, else [c+1] for the cells of the frame. *)
Definition cell_nbs (cellnumbers : list (list nat)) (frame : nat) : list nat :=
  if bool_decide (length cellnumbers ≤ frame) then []
  else (λ c, c + 1) <$> default [] (cellnumbers !! frame).

Section Labels.
Context (utils : utilities).

(** The head of [ROI.extract_features(frame, ...)], up to the label map of
    the frame: the default frame, the extension of [label_stack] with
    [None], and the label map compiled and stored when the slot holds
    [None].  It returns [self.label_stack[frame]]. *)
Definition compile_labels (frame : option nat) : M ROI.t Labels :=
  roi ← get;
  let frame := default (length (label_stack roi)) frame in
  (if bool_decide (length (label_stack roi) ≤ frame)
   then modify (λ roi, set_label_stack
                         (label_stack roi
                          ++ replicate (frame + 1 - length (label_stack roi))
                               None) roi)
   else mret tt);;
  roi ← get;
  cached ← index (label_stack roi) frame;
  match cached with
  | Some labels => mret labels
  | None =>
      let nbs := cell_nbs (Lineage.cellnumbers (lineage roi)) frame in
      seg ← array (seg_stack roi) frame;
      let labels := label_seg_cells utils seg nbs in
      labels ← (if crop_windows roi then mret labels
                else w ← minus (xbr (box roi)) (xtl (box roi));
                     h ← minus (ybr (box roi)) (ytl (box roi));
                     mret (resize_nearest utils labels (w, h)));
      modify (λ roi, set_label_stack
                       (<[frame := Some labels]> (label_stack roi)) roi);;
      mret labels
  end.

End Labels.

(** The edge mark of a cell in [extract_features]: [cnt] holds the points
    [(x, y)] of the contour, [shape] is the shape of the label map. *)
Definition edge_str (cnt : list (Z * Z)) (shape : nat * nat) : string :=
  (if bool_decide (Exists (λ p, p.1 = 0%Z) cnt) then "-x" else "")
  +:+ (if bool_decide (Exists (λ p, p.1 = (Z.of_nat shape.2 - 1)%Z) cnt)
       then "+x" else "")
  +:+ (if bool_decide (Exists (λ p, p.2 = 0%Z) cnt) then "-y" else "")
  +:+ (if bool_decide (Exists (λ p, p.2 = (Z.of_nat shape.1 - 1)%Z) cnt)
       then "+y" else "").

(** The method changes nothing of the region but its lineage, whether it
    returns or raises. *)
Definition lineage_only {T : Type} (m : M ROI.t T) : Prop :=
  ∀ roi, (m roi).2 = set_lineage (lineage (m roi).2) roi.

End Features.

(** ** Batches: compiling inputs and dispatching outputs
       ([Position.segment], [Position.track], [Pipeline.preprocess]) *)

Module Orchestration.
Import Py Arrays ROI.

(** A method of [self.rois[i]] (of [self.positions[i]]) run on the list
    that holds the object. *)
Definition on_item {S T : Type} (i : nat) (m : M S T) : M (list S) T :=
  λ l, match l !! i with
       | Some s => let '(r, s') := m s in (r, <[i := s']> l)
       | None => (Raised IndexError, l)
       end.

(** The dispatch loops of [Position.segment] and [Position.track]:
    [i = 0; for ref in references:
       self.rois[ref[0]].method(y[i:i+ref[1]], frame=ref[2], ref[3]);
       i += ref[1]]. *)
Definition dispatch {S Y B : Type} (method : list Y → option nat → B → M S unit)
    (y : list Y) (references : list (nat * nat * nat * B)) : M (list S) unit :=
  for_fold
    (λ i ref,
       on_item ref.1.1.1
         (method (slice i (i + ref.1.1.2) y) (Some ref.1.2) ref.2);;
       mret (i + ref.1.1.2))
    0 references;;
  mret tt.

Section Batches.
Context {X : Type} (utils : ROI.utilities X).

(** The first loop of [Position.segment]: the segmentation inputs of every
    region for every frame of the batch, with the references
    [[r, len(x[-1]), f, windows]]. *)
Definition compile_segmentation (trans_frames : list Img)
  : M (list ROI.t)
      (list (list Img)
       * list (nat * nat * nat
               * option (list (nat * nat) * list (nat * nat)))) :=
  for_fold
    (λ acc (fimg : nat * Img),
       rois ← @get (list ROI.t);
       for_fold
         (λ acc r,
            iw ← on_item r (get_segmentation_inputs utils fimg.2);
            mret (acc.1 ++ [iw.1], acc.2 ++ [(r, length iw.1, fimg.1, iw.2)]))
         acc (seq 0 (length rois)))
    ([], []) (imap pair trans_frames).

(** The compilation loop of [Position.track] for one frame: the regions in
    order, those without inputs left out. *)
Definition compile_tracking (f : nat)
  : M (list ROI.t)
      (list (list X) * list (nat * nat * nat * option (list (Box * Box)))) :=
  rois ← @get (list ROI.t);
  for_fold
    (λ acc r,
       ib ← on_item r (get_tracking_inputs utils (Some f));
       match ib.1 with
       | Some inputs =>
           mret (acc.1 ++ [inputs], acc.2 ++ [(r, length inputs, f, ib.2)])
       | None => mret acc
       end)
    ([], []) (seq 0 (length rois)).

(** The body of the loop of [Position.track] for the frame [f]; [predict] is
    the tracking model on the concatenated inputs, called only when there
    are inputs. *)
Definition track_frame (predict : list X → list Img) (f : nat)
  : M (list ROI.t) unit :=
  xr ← compile_tracking f;
  let y := if bool_decide (0 < length xr.1) then predict (concat xr.1)
           else [] in
  dispatch (process_tracking_outputs utils) y xr.2.

(** [Position.track(frames)] (the messages it prints are left out). *)
Definition track (predict : list X → list Img) (frames : list nat)
  : M (list ROI.t) unit :=
  for_each (track_frame predict) frames.

End Batches.

(** [Pipeline.preprocess(positions, references)] on the list of positions:
    [npos] is [self.reader.positions], and [preprocess] the method
    [Position.preprocess(reference=...)]. *)
Definition pipeline_preprocess {P Ref : Type}
    (preprocess : option Ref → M P unit) (npos : nat)
    (positions : option (list nat)) (references : option (list (option Ref)))
  : M (list P) unit :=
  let positions_torun := default (seq 0 npos) positions in
  let references :=
    default (replicate (length positions_torun) None) references in
  for_each
    (λ p, positions ← @get (list P);
          _ ← index positions p;
          reference ← index references p;
          on_item p (preprocess reference))
    positions_torun.

End Orchestration.

(** ** More regions to run the methods on *)

Module Fixtures.
Import ROI.

(** A region with two frames segmented and tracked, one cell in each. *)
Definition tracked : ROI.t := {|
  roi_nb := 0;
  box := Demo.nobox;
  img_stack := [Demo.img; Demo.img];
  seg_stack := [Some Demo.mask0; Some Demo.mask1];
  lineage := {| Lineage.stack := [[Lineage.Entry 1 None [(1, 0); (1, 2)]%Z];
                                  [Lineage.Entry 1 (Some 1) [(0, 0); (0, 2)]%Z]];
                Lineage.ncells := 1;
                Lineage.values := ∅ |};
  label_stack := [];
  crop_windows := true;
  verbose := 1;
  scaling := None
|}.

(** A region before its first frame. *)
Definition fresh : ROI.t := {|
  roi_nb := 1;
  box := Demo.nobox;
  img_stack := [];
  seg_stack := [];
  lineage := Lineage.empty;
  label_stack := [];
  crop_windows := false;
  verbose := 1;
  scaling := Some (1, 1)%Q
|}.

(** Helpers that find two contours and no pole. *)
Definition utils : utilities nat := {|
  cropbox := λ img _, img;
  rangescale := λ img, img;
  resize := λ img _, img;
  opencv_areafilt := λ mask, mask;
  label_seg := λ mask, mask;
  getpoles := λ _ _ _, [];
  getTrackingScores := λ _ _ _, None;
  findContours := λ _, [[(0, 0)]; [(2, 2)]]%Z;
  tracking_input := λ _ _ _ _ cell, (length cell, (Demo.nobox, Demo.nobox));
  target_size_seg := (2, 2)
|}.

Definition label_utils : Features.utilities := {|
  Features.label_seg_cells := λ mask nbs, (λ r : list nat, (λ v, v * length nbs) <$> r) <$> mask;
  Features.resize_nearest := λ labels _, labels
|}.

End Fixtures.

(* ===================================================================== *)
(** * Part II: theorems *)
(* ===================================================================== *)

Module WindowsFacts.
Import Arrays Windows.

Example windows_300_256 : windows 300 256 = [(0, 256); (256, 300)].
Proof. reflexivity. Qed.

Example windows_500_256 : windows 500 256 = [(0, 256); (256, 500)].
Proof. reflexivity. Qed.

Example stitch_tile_3x5 :
  let img := [[1; 2; 3; 4; 5]; [6; 7; 8; 9; 10]; [11; 12; 13; 14; 15]] in
  let '(x, wy, wx) := create_windows 0 img (2, 2) in
  length x = 6 ∧ x !! 5 = Some [[15; 0]; [0; 0]] ∧ stitch_pic 0 x wy wx = img.
Proof. vm_compute. done. Qed.


(** *** One axis *)

Lemma elem_of_windows (n t : nat) (w : nat * nat) :
  0 < t → w ∈ windows n t → w.1 < w.2 ∧ w.2 ≤ n ∧ w.2 - w.1 ≤ t.
Proof.
  intros Ht [k [-> Hk]]%list_elem_of_fmap. apply elem_of_seq in Hk. simpl.
  assert (k * t < n); [|lia].
  destruct Hk as [_ Hk]. simpl in Hk.
  assert (k ≤ (n + t - 1) / t - 1) as Hle by lia.
  assert (t * ((n + t - 1) / t) ≤ n + t - 1) by (apply Nat.Div0.mul_div_le).
  nia.
Qed.

Lemma windows_cover (n t r : nat) :
  0 < t → r < n → ∃ w, w ∈ windows n t ∧ w.1 ≤ r < w.2.
Proof.
  intros Ht Hr. exists (r / t * t, (r / t * t + t) `min` n). split.
  - apply (list_elem_of_fmap_2 (λ k, (k * t, (k * t + t) `min` n))).
    apply elem_of_seq. split; [lia|]. simpl.
    apply Nat.Div0.div_lt_upper_bound.
    assert (n + t - 1 = (n - 1) + 1 * t) as -> by lia.
    rewrite Nat.div_add by lia.
    assert (r / t ≤ (n - 1) / t) by (apply Nat.Div0.div_le_mono; lia).
    assert (t * (r / t) ≤ r) by (apply Nat.Div0.mul_div_le).
    pose proof (Nat.mul_succ_div_gt r t ltac:(lia)).
    nia.
  - simpl.
    assert (t * (r / t) ≤ r) by (apply Nat.Div0.mul_div_le).
    pose proof (Nat.mul_succ_div_gt r t ltac:(lia)).
    lia.
Qed.

Lemma extent_windows (n t : nat) : 0 < t → extent (windows n t) = n.
Proof.
  intros Ht. unfold extent, windows. rewrite !fmap_last, last_lookup, length_seq.
  destruct (decide (n = 0)) as [->|Hn].
  { replace ((0 + t - 1) / t) with 0; [done|].
    symmetry. apply Nat.div_small. lia. }
  assert (0 < (n + t - 1) / t) as Hpos.
  { apply Nat.div_str_pos. lia. }
  rewrite lookup_seq_lt by lia. simpl.
  pose proof (Nat.mul_succ_div_gt (n + t - 1) t ltac:(lia)).
  assert (t * ((n + t - 1) / t) ≤ n + t - 1) by (apply Nat.Div0.mul_div_le).
  nia.
Qed.

(** *** Reading a written canvas *)

Section ArrayFacts.
Context {A : Type}.
Implicit Types (cv tile img : list (list A)) (wy wx : nat * nat).

Lemma length_write cv tile wy wx : length (write cv tile wy wx) = length cv.
Proof. apply length_inserts. Qed.

Lemma write_lookup_outside cv tile wy wx r :
  ¬ (wy.1 ≤ r < wy.2) → write cv tile wy wx !! r = cv !! r.
Proof.
  intros Hr. unfold write, slice.
  destruct (decide (r < wy.1)); [by apply list_lookup_inserts_lt|].
  apply list_lookup_inserts_ge.
  rewrite length_zip_with, !length_take. lia.
Qed.

Lemma write_lookup_inside cv tile wy wx r trow crow :
  wy.1 ≤ r < wy.2 → tile !! (r - wy.1) = Some trow → cv !! r = Some crow →
  write cv tile wy wx !! r
  = Some (list_inserts wx.1 (take (wx.2 - wx.1) trow) crow).
Proof.
  intros Hr Ht Hc. unfold write, slice.
  pose proof (lookup_lt_Some _ _ _ Ht). pose proof (lookup_lt_Some _ _ _ Hc).
  rewrite list_lookup_inserts.
  - rewrite lookup_zip_with, !lookup_take_lt, lookup_drop by lia.
    replace (wy.1 + (r - wy.1)) with r by lia.
    by rewrite Ht, Hc.
  - rewrite length_zip_with, !length_take, length_drop. lia.
  - done.
Qed.

Lemma rectangular_write W cv tile wy wx :
  rectangular W cv → rectangular W (write cv tile wy wx).
Proof.
  unfold rectangular. rewrite !Forall_lookup. intros Hcv r row Hrow.
  destruct (decide (wy.1 ≤ r < wy.2)) as [Hr|Hr].
  - assert (r < length cv) as Hlt.
    { rewrite <-(length_write cv tile wy wx). by eapply lookup_lt_Some. }
    destruct (lookup_lt_is_Some_2 cv r Hlt) as [crow Hc].
    destruct (tile !! (r - wy.1)) as [trow|] eqn:Ht.
    + rewrite (write_lookup_inside _ _ _ _ _ _ _ Hr Ht Hc) in Hrow.
      injection Hrow as <-. rewrite length_inserts. eauto.
    + unfold write, slice in Hrow.
      rewrite list_lookup_inserts_ge in Hrow; [eauto|].
      apply lookup_ge_None_1 in Ht.
      rewrite length_zip_with, !length_take. lia.
  - rewrite write_lookup_outside in Hrow by done. eauto.
Qed.

Lemma get2_write W cv tile wy wx r c :
  rectangular W cv → wy.2 ≤ length cv → wx.2 ≤ W →
  wy.2 - wy.1 ≤ length tile →
  Forall (λ trow, wx.2 - wx.1 ≤ length trow) tile →
  get2 (write cv tile wy wx) r c
  = if decide ((wy.1 ≤ r < wy.2) ∧ (wx.1 ≤ c < wx.2))
    then get2 tile (r - wy.1) (c - wx.1) else get2 cv r c.
Proof.
  intros Hcv Hy Hx Hth Htw. unfold get2.
  destruct (decide (wy.1 ≤ r < wy.2)) as [Hr|Hr].
  - destruct (lookup_lt_is_Some_2 cv r ltac:(lia)) as [crow Hc].
    destruct (lookup_lt_is_Some_2 tile (r - wy.1) ltac:(lia)) as [trow Ht].
    rewrite (write_lookup_inside _ _ _ _ _ _ _ Hr Ht Hc), Ht, Hc. simpl.
    assert (length crow = W) by (eapply (proj1 (Forall_lookup _ _) Hcv); eauto).
    assert (wx.2 - wx.1 ≤ length trow)
      by (eapply (proj1 (Forall_lookup _ _) Htw); eauto).
    destruct (decide (wx.1 ≤ c < wx.2)) as [Hcc|Hcc].
    + rewrite decide_True by done.
      rewrite list_lookup_inserts by (rewrite ?length_take; lia).
      by rewrite lookup_take_lt by lia.
    + rewrite decide_False by tauto.
      destruct (decide (c < wx.1)); [by apply list_lookup_inserts_lt|].
      apply list_lookup_inserts_ge. rewrite length_take. lia.
  - rewrite decide_False by tauto. by rewrite write_lookup_outside.
Qed.

Lemma get2_ext W (a b : list (list A)) :
  length a = length b → rectangular W a → rectangular W b →
  (∀ r c, r < length a → c < W → get2 a r c = get2 b r c) → a = b.
Proof.
  intros Hlen Ha Hb Hget.
  apply (list_eq_same_length _ _ (length a)); [done..|].
  intros r x y Hr Hx Hy.
  assert (length x = W) by (eapply (proj1 (Forall_lookup _ _) Ha); eauto).
  assert (length y = W) by (eapply (proj1 (Forall_lookup _ _) Hb); eauto).
  apply (list_eq_same_length _ _ W); [done..|].
  intros c u v Hc Hu Hv. specialize (Hget r c Hr Hc). unfold get2 in Hget.
  rewrite Hx, Hy in Hget. simpl in Hget. congruence.
Qed.

Lemma shape_rectangular W img :
  rectangular W img → img ≠ [] → shape img = (length img, W).
Proof.
  intros Himg Hne. unfold shape. destruct img as [|row img]; [done|].
  simpl. by rewrite (Forall_inv Himg).
Qed.

End ArrayFacts.

(** *** Tiles *)

Section TileFacts.
Context {A : Type} (zero : A).
Implicit Types (cv tile img : list (list A)) (wy wx : nat * nat).

Lemma length_pad_row (n : nat) (row : list A) :
  length row ≤ n → length (pad_row zero n row) = n.
Proof. intros. unfold pad_row. rewrite length_app, length_replicate. lia. Qed.

Lemma length_slice {X : Type} (a b : nat) (l : list X) :
  length (slice a b l) = (b - a) `min` (length l - a).
Proof. unfold slice. by rewrite length_take, length_drop. Qed.

Lemma tile_full_size img th tw wy wx :
  wy.2 - wy.1 ≤ th → wx.2 - wx.1 ≤ tw →
  length (pad_tile zero th tw (crop img wy wx)) = th
  ∧ rectangular tw (pad_tile zero th tw (crop img wy wx)).
Proof.
  intros Hy Hx. unfold pad_tile, crop, rectangular. split.
  - rewrite length_app, !length_fmap, length_replicate, length_slice. lia.
  - apply Forall_app. split.
    + apply Forall_fmap, Forall_fmap, Forall_forall. intros row _. simpl.
      apply length_pad_row. rewrite length_slice. lia.
    + apply Forall_replicate, length_replicate.
Qed.

Lemma get2_tile_valid W img th tw wy wx i j :
  rectangular W img → wy.2 ≤ length img → wx.2 ≤ W →
  i < wy.2 - wy.1 → j < wx.2 - wx.1 →
  get2 (pad_tile zero th tw (crop img wy wx)) i j
  = get2 img (wy.1 + i) (wx.1 + j).
Proof.
  intros Himg Hy Hx Hi Hj. unfold get2, pad_tile, crop.
  destruct (lookup_lt_is_Some_2 img (wy.1 + i) ltac:(lia)) as [row Hrow].
  assert (length row = W) by (eapply (proj1 (Forall_lookup _ _) Himg); eauto).
  rewrite lookup_app_l by (rewrite !length_fmap, length_slice; lia).
  rewrite !list_lookup_fmap. unfold slice at 2.
  rewrite lookup_take_lt, lookup_drop, Hrow by lia. simpl.
  unfold pad_row. rewrite lookup_app_l by (rewrite length_slice; lia).
  unfold slice. by rewrite lookup_take_lt, lookup_drop by lia.
Qed.

Lemma get2_tile_padding W img th tw wy wx i j :
  rectangular W img → wy.2 ≤ length img → wx.2 ≤ W →
  wy.1 ≤ wy.2 → wx.1 ≤ wx.2 →
  i < th → j < tw → wy.2 - wy.1 ≤ i ∨ wx.2 - wx.1 ≤ j →
  get2 (pad_tile zero th tw (crop img wy wx)) i j = Some zero.
Proof.
  intros Himg Hy Hx Hy1 Hx1 Hi Hj Hout. unfold get2, pad_tile, crop.
  assert (length (pad_row zero tw <$> (slice wx.1 wx.2 <$> slice wy.1 wy.2 img))
          = wy.2 - wy.1) as Hlen.
  { rewrite !length_fmap, length_slice. lia. }
  destruct (decide (i < wy.2 - wy.1)) as [Hin|Hin].
  - destruct (lookup_lt_is_Some_2 img (wy.1 + i) ltac:(lia)) as [row Hrow].
    assert (length row = W) by (eapply (proj1 (Forall_lookup _ _) Himg); eauto).
    rewrite lookup_app_l by lia.
    rewrite !list_lookup_fmap. unfold slice at 2.
    rewrite lookup_take_lt, lookup_drop, Hrow by lia. simpl.
    unfold pad_row.
    rewrite lookup_app_r by (rewrite length_slice; lia).
    apply lookup_replicate_2. rewrite length_slice. lia.
  - rewrite lookup_app_r by lia.
    rewrite lookup_replicate_2 by (rewrite Hlen, !length_fmap, length_slice; lia).
    simpl. by apply lookup_replicate_2.
Qed.

Lemma get2_stitch_tiles W img th tw ws r c :
  rectangular W img → Forall (fits (length img) W th tw) ws →
  ∀ cv, rectangular W cv → length cv = length img →
    let out := foldl (λ cv tw, write cv tw.1 tw.2.1 tw.2.2) cv
                 ((λ w, (pad_tile zero th tw (crop img w.1 w.2), w)) <$> ws) in
    length out = length img ∧ rectangular W out
    ∧ (Exists (inside r c) ws → get2 out r c = get2 img r c)
    ∧ (¬ Exists (inside r c) ws → get2 out r c = get2 cv r c).
Proof.
  intros Himg Hws. induction Hws as [|w ws Hw Hws IH]; intros cv Hcv Hlen.
  { simpl. repeat split; try done. by intros ?%Exists_nil. }
  rewrite fmap_cons. cbn [foldl fst snd]. cbv zeta.
  destruct Hw as (Hy & Hx & Hth & Htw).
  destruct (tile_full_size img th tw w.1 w.2 Hth Htw) as [Htl Htr].
  set (tile := pad_tile zero th tw (crop img w.1 w.2)) in *.
  destruct (IH (write cv tile w.1 w.2)) as (IH1 & IH2 & IH3 & IH4).
  { by apply rectangular_write. }
  { by rewrite length_write. }
  split; [done|]. split; [done|].
  assert (get2 (write cv tile w.1 w.2) r c
          = if decide (inside r c w) then get2 img r c else get2 cv r c) as Hwr.
  { rewrite (get2_write W); try done; try lia.
    2:{ eapply Forall_impl; [exact Htr|]. simpl. intros; lia. }
    unfold inside. case_decide as Hin; [|done].
    destruct Hin as [Hr Hc]. unfold tile.
    rewrite (get2_tile_valid W) by (try done; lia).
    f_equal; lia. }
  split.
  - intros Hex. destruct (decide (Exists (inside r c) ws)) as [Hex'|Hex'];
      [by apply IH3|].
    rewrite IH4, Hwr by done. apply Exists_cons in Hex as [Hin|]; [|done].
    by rewrite decide_True.
  - intros Hnex. rewrite IH4, Hwr.
    + rewrite decide_False; [done|]. intros Hin. apply Hnex. by left.
    + intros Hex. apply Hnex. by right.
Qed.

End TileFacts.

(** *** Round trip *)

Lemma zip_fmap_self {X Y : Type} (f : X → Y) (l : list X) :
  zip (f <$> l) l = (λ x, (f x, x)) <$> l.
Proof. induction l as [|x l IH]; [done|]. csimpl. by rewrite IH. Qed.

Lemma tiling_fits (H W th tw : nat) (w : (nat * nat) * (nat * nat)) :
  0 < th → 0 < tw → w ∈ list_prod (windows H th) (windows W tw) →
  fits H W th tw w ∧ w.1.1 ≤ w.1.2 ∧ w.2.1 ≤ w.2.2.
Proof.
  intros Hth Htw Hw. destruct w as [wy wx].
  apply list_elem_of_In, in_prod_iff in Hw as [Hy Hx].
  apply list_elem_of_In, elem_of_windows in Hy; [|done].
  apply list_elem_of_In, elem_of_windows in Hx; [|done].
  unfold fits. simpl. lia.
Qed.

Lemma tiling_covers (H W th tw r c : nat) :
  0 < th → 0 < tw → r < H → c < W →
  Exists (inside r c) (list_prod (windows H th) (windows W tw)).
Proof.
  intros Hth Htw Hr Hc.
  destruct (windows_cover H th r Hth Hr) as (wy & Hy & Hry).
  destruct (windows_cover W tw c Htw Hc) as (wx & Hx & Hcx).
  apply Exists_exists. exists (wy, wx). split; [|done].
  apply list_elem_of_In, in_prod_iff. by rewrite <-!list_elem_of_In.
Qed.

Lemma crop_full {A : Type} (W : nat) (img : list (list A)) :
  rectangular W img → crop img (0, length img) (0, W) = img.
Proof.
  intros Himg. unfold crop, slice. cbn [fst snd].
  rewrite !Nat.sub_0_r, drop_0, take_ge by done.
  induction Himg as [|row img Hrow _ IH]; [done|].
  rewrite fmap_cons, IH. f_equal. rewrite drop_0. apply take_ge. lia.
Qed.

(** C1.  Tiling then stitching is the identity: for every (rectangular)
    image and every tile size with positive sides, [stitch_pic] applied to
    the tiles and placements of [create_windows] gives back the image,
    with its dimensions and content, also when the sides of the image are
    no multiples of the tile size.  Every tile has the full tile size, and
    its entries outside the valid region of its window are zero.  The crop
    to the size of the image that [process_segmentation_outputs] applies
    after stitching changes nothing. *)
Theorem stitch_create_windows {A : Type} (zero : A) (img : list (list A))
    (target_size : nat * nat) :
  rectangular (shape img).2 img → 0 < target_size.1 → 0 < target_size.2 →
  let cw := create_windows zero img target_size in
  stitch_pic zero cw.1.1 cw.1.2 cw.2 = img
  ∧ Forall (λ tile, length tile = target_size.1
                    ∧ rectangular target_size.2 tile) cw.1.1
  ∧ (∀ k tile w i j,
       cw.1.1 !! k = Some tile → list_prod cw.1.2 cw.2 !! k = Some w →
       i < target_size.1 → j < target_size.2 →
       w.1.2 - w.1.1 ≤ i ∨ w.2.2 - w.2.1 ≤ j →
       get2 tile i j = Some zero)
  ∧ crop (stitch_pic zero cw.1.1 cw.1.2 cw.2)
      (0, (shape img).1) (0, (shape img).2) = img.
Proof.
  intros Himg0 Hth0 Htw0.
  cut (let cw := create_windows zero img target_size in
       stitch_pic zero cw.1.1 cw.1.2 cw.2 = img
       ∧ Forall (λ tile, length tile = target_size.1
                         ∧ rectangular target_size.2 tile) cw.1.1
       ∧ (∀ k tile w i j,
            cw.1.1 !! k = Some tile → list_prod cw.1.2 cw.2 !! k = Some w →
            i < target_size.1 → j < target_size.2 →
            w.1.2 - w.1.1 ≤ i ∨ w.2.2 - w.2.1 ≤ j →
            get2 tile i j = Some zero)).
  { cbv zeta. intros (Hst & Hfull & Hpad). rewrite Hst.
    repeat (split; [done|]). by apply crop_full. }
  revert Himg0 Hth0 Htw0.
  destruct target_size as [th tw]. unfold create_windows, shape.
  set (H := length img). set (W := length (default [] (head img))).
  cbn [fst snd]. intros Himg Hth Htw.
  set (ws := list_prod (windows H th) (windows W tw)).
  assert (Forall (λ w, fits H W th tw w ∧ w.1.1 ≤ w.1.2 ∧ w.2.1 ≤ w.2.2) ws)
    as Hws.
  { apply Forall_forall. intros w Hw. by apply tiling_fits. }
  split; [|split].
  - unfold stitch_pic. rewrite !extent_windows by done. fold ws.
    rewrite zip_fmap_self.
    set (cv := replicate H (replicate W zero)).
    assert (rectangular W cv) as Hcv.
    { apply Forall_replicate, length_replicate. }
    assert (length cv = H) as Hlen by apply length_replicate.
    assert (Forall (fits (length img) W th tw) ws) as Hfits.
    { eapply Forall_impl; [exact Hws|]. by intros w [? _]. }
    apply (get2_ext W).
    + by destruct (get2_stitch_tiles zero W img th tw ws 0 0 Himg Hfits cv Hcv Hlen)
        as (-> & _).
    + by destruct (get2_stitch_tiles zero W img th tw ws 0 0 Himg Hfits cv Hcv Hlen)
        as (_ & ? & _).
    + done.
    + intros r c Hr Hc.
      destruct (get2_stitch_tiles zero W img th tw ws r c Himg Hfits cv Hcv Hlen)
        as (Hl & _ & Hin & _).
      apply Hin. rewrite Hl in Hr. by apply tiling_covers.
  - apply Forall_fmap. eapply Forall_impl; [exact Hws|].
    intros w [(_ & _ & ? & ?) _]. simpl. by apply tile_full_size.
  - intros k tile w i j Htile Hw Hi Hj Hout. fold ws in Hw.
    rewrite list_lookup_fmap, Hw in Htile. injection Htile as <-.
    apply list_elem_of_lookup_2 in Hw.
    destruct (proj1 (Forall_forall _ _) Hws w Hw) as [(? & ? & _ & _) [? ?]].
    by apply (get2_tile_padding zero W).
Qed.

Lemma stitch_create_windows_witness :
  let img := [[1; 2; 3; 4; 5]; [6; 7; 8; 9; 10]; [11; 12; 13; 14; 15]] in
  let cw := create_windows 0 img (2, 2) in
  stitch_pic 0 cw.1.1 cw.1.2 cw.2 = img
  ∧ Forall (λ tile, length tile = 2 ∧ rectangular 2 tile) cw.1.1
  ∧ (∀ k tile w i j,
       cw.1.1 !! k = Some tile → list_prod cw.1.2 cw.2 !! k = Some w →
       i < 2 → j < 2 → w.1.2 - w.1.1 ≤ i ∨ w.2.2 - w.2.1 ≤ j →
       get2 tile i j = Some 0)
  ∧ crop (stitch_pic 0 cw.1.1 cw.1.2 cw.2) (0, (shape img).1) (0, (shape img).2)
    = img.
Proof.
  apply (stitch_create_windows 0
           [[1; 2; 3; 4; 5]; [6; 7; 8; 9; 10]; [11; 12; 13; 14; 15]] (2, 2)).
  - repeat constructor.
  - simpl. lia.
  - simpl. lia.
Defined.

End WindowsFacts.

(** ** Running methods *)

Module PyFacts.
Import Py.

Section Run.
Context {S : Type}.

Lemma run_bind {T U : Type} (m : M S T) (k : T → M S U) (s s' : S) (v : T) :
  m s = (Returned v, s') → (m ≫= k) s = k v s'.
Proof. intros Hm. unfold mbind, bind. by rewrite Hm. Qed.

Lemma run_bind_raised {T U : Type} (m : M S T) (k : T → M S U) (s s' : S) e :
  m s = (Raised e, s') → (m ≫= k) s = (Raised e, s').
Proof. intros Hm. unfold mbind, bind. by rewrite Hm. Qed.

Lemma run_index {T : Type} (l : list T) (i : nat) (v : T) (s : S) :
  l !! i = Some v → index l i s = (Returned v, s).
Proof. intros Hl. unfold index. by rewrite Hl. Qed.

Lemma run_array {T : Type} (l : list (option T)) (i : nat) (v : T) (s : S) :
  l !! i = Some (Some v) → array l i s = (Returned v, s).
Proof. intros Hl. unfold array. by rewrite (run_bind _ _ _ _ _ (run_index _ _ _ s Hl)). Qed.

(** A loop whose body acts as the pure step [g] on the states of an invariant
    runs to its end and folds [g]. *)
Lemma run_for_each {X : Type} (I : S → Prop) (g : X → S → S)
    (body : X → M S unit) (xs : list X) :
  (∀ x s, x ∈ xs → I s → body x s = (Returned tt, g x s) ∧ I (g x s)) →
  ∀ s, I s →
    for_each body xs s = (Returned tt, foldl (λ s x, g x s) s xs)
    ∧ I (foldl (λ s x, g x s) s xs).
Proof.
  induction xs as [|x xs IH]; intros Hbody s Hs; [done|].
  destruct (Hbody x s ltac:(left) Hs) as [Hx Hgs].
  cbn [for_each foldl]. rewrite (run_bind _ _ _ _ _ Hx).
  apply IH; [|done]. intros y s' Hy. apply Hbody. by right.
Qed.

Lemma for_each_fmap {X Y : Type} (body : Y → M S unit) (f : X → Y)
    (xs : list X) :
  for_each body (f <$> xs) = for_each (λ x, body (f x)) xs.
Proof.
  induction xs as [|x xs IH]; [done|].
  rewrite fmap_cons. cbn [for_each]. by rewrite IH.
Qed.

(** A loop with an accumulator whose body leaves the states of an invariant
    as they are folds the pure step [g]. *)
Lemma run_for_fold {X B : Type} (I : S → Prop) (g : B → X → B)
    (body : B → X → M S B) (xs : list X) :
  (∀ acc x s, x ∈ xs → I s → body acc x s = (Returned (g acc x), s)) →
  ∀ acc s, I s → for_fold body acc xs s = (Returned (foldl g acc xs), s).
Proof.
  induction xs as [|x xs IH]; intros Hbody acc s Hs; [done|].
  cbn [for_fold foldl].
  rewrite (run_bind _ _ _ _ _ (Hbody acc x s ltac:(left) Hs)).
  apply IH; [|done]. intros acc' y s' Hy. apply Hbody. by right.
Qed.

Lemma run_collect_index {T : Type} (l : list T) (ixs : list nat) (s : S) :
  Forall (λ i, i < length l) ixs →
  ∃ vs, collect (index l) ixs s = (Returned vs, s)
        ∧ Forall2 (λ i v, l !! i = Some v) ixs vs.
Proof.
  induction 1 as [|i ixs Hi _ (vs & IH & Hvs)]; [by exists []|].
  destruct (lookup_lt_is_Some_2 l i Hi) as [v Hv].
  exists (v :: vs). cbn [collect].
  rewrite (run_bind _ _ _ _ _ (run_index _ _ _ s Hv)).
  rewrite (run_bind _ _ _ _ _ IH). split; [done|]. by constructor.
Qed.

End Run.

Section Quiet.
Context {S : Type}.

Lemma quiet_ret {T : Type} (v : T) : no_runtime_error (mret v : M S T).
Proof. by intros s msg. Qed.

Lemma quiet_get : no_runtime_error (get : M S S).
Proof. by intros s msg. Qed.

Lemma quiet_modify (f : S → S) : no_runtime_error (modify f).
Proof. by intros s msg. Qed.

Lemma quiet_bind {T U : Type} (m : M S T) (k : T → M S U) :
  no_runtime_error m → (∀ v, no_runtime_error (k v)) →
  no_runtime_error (m ≫= k).
Proof.
  intros Hm Hk s msg. unfold mbind, bind. specialize (Hm s msg).
  destruct (m s) as [[v|e] s']; [apply Hk|]. simpl in *. congruence.
Qed.

Lemma quiet_index {T : Type} (l : list T) (i : nat) :
  no_runtime_error (index l i : M S T).
Proof. intros s msg. unfold index. by destruct (l !! i). Qed.

Lemma quiet_array {T : Type} (l : list (option T)) (i : nat) :
  no_runtime_error (array l i : M S T).
Proof.
  apply quiet_bind; [apply quiet_index|]. intros [v|]; [apply quiet_ret|done].
Qed.

Lemma quiet_for_each {X : Type} (body : X → M S unit) (xs : list X) :
  (∀ x, no_runtime_error (body x)) → no_runtime_error (for_each body xs).
Proof.
  intros Hbody. induction xs as [|x xs IH]; [apply quiet_ret|].
  by apply quiet_bind.
Qed.

Lemma quiet_collect {X Y : Type} (f : X → M S Y) (xs : list X) :
  (∀ x, no_runtime_error (f x)) → no_runtime_error (collect f xs).
Proof.
  intros Hf. induction xs as [|x xs IH]; [apply quiet_ret|].
  apply quiet_bind; [done|]. intros y.
  apply quiet_bind; [done|]. intros ys. apply quiet_ret.
Qed.

End Quiet.

Lemma quiet_zoom {S C T : Type} (proj : S → C) (inj : C → S → S) (m : M C T) :
  no_runtime_error m → no_runtime_error (zoom proj inj m).
Proof.
  intros Hm s msg. unfold zoom. specialize (Hm (proj s) msg).
  by destruct (m (proj s)).
Qed.

Lemma run_zoom {S C T : Type} (proj : S → C) (inj : C → S → S)
    (m : M C T) (s : S) r c :
  m (proj s) = (r, c) → zoom proj inj m s = (r, inj c s).
Proof. intros Hm. unfold zoom. by rewrite Hm. Qed.

End PyFacts.

(** ** The lineage graph *)

Module LineageFacts.
Import Py PyFacts Lineage.

Lemma entries_ensure_frame (frame g : nat) (l : t) :
  entries g (ensure_frame frame l) = entries g l.
Proof.
  unfold entries, ensure_frame. simpl.
  destruct (decide (g < length (stack l))) as [Hg|Hg].
  - by rewrite lookup_app_l.
  - rewrite lookup_app_r, (lookup_ge_None_2 (stack l) g) by lia. simpl.
    by destruct (replicate _ _ !! _) as [es|] eqn:Hes;
      [apply lookup_replicate_1 in Hes as [-> _]|].
Qed.

Lemma lookup_ensure_frame (frame : nat) (l : t) :
  stack (ensure_frame frame l) !! frame = Some (entries frame l).
Proof.
  unfold entries, ensure_frame. simpl.
  destruct (decide (frame < length (stack l))) as [Hg|Hg].
  - rewrite lookup_app_l by done.
    by destruct (lookup_lt_is_Some_2 _ _ Hg) as [es ->].
  - rewrite lookup_app_r, (lookup_ge_None_2 (stack l) frame) by lia. simpl.
    apply lookup_replicate_2. lia.
Qed.

Lemma entries_append_entry (frame g : nat) (e : entry) (l : t) :
  entries g (append_entry frame e l)
  = if decide (g = frame) then entries frame l ++ [e] else entries g l.
Proof.
  unfold append_entry. unfold entries at 1. cbn [stack]. case_decide as Hg.
  - subst g. by rewrite list_lookup_alter_eq, lookup_ensure_frame.
  - rewrite list_lookup_alter_ne by done. apply entries_ensure_frame.
Qed.

Lemma lookup_append_entry (frame : nat) (e : entry) (l : t) :
  stack (append_entry frame e l) !! frame = Some (entries frame l ++ [e]).
Proof.
  unfold append_entry. cbn [stack].
  by rewrite list_lookup_alter_eq, lookup_ensure_frame.
Qed.

Lemma lookup_append_entry_ne (frame g : nat) (e : entry) (l : t) :
  g < length (stack l) → g ≠ frame →
  stack (append_entry frame e l) !! g = stack l !! g.
Proof.
  intros Hg Hne. unfold append_entry, ensure_frame. simpl.
  rewrite list_lookup_alter_ne by done. by rewrite lookup_app_l.
Qed.

Lemma foldl_seq_lookup {S Y : Type} (g : Y → S → S) (d : Y) (l pre : list Y)
    (s : S) :
  foldl (λ s i, g (default d ((pre ++ l) !! i)) s) s
    (seq (length pre) (length l))
  = foldl (λ s y, g y s) s l.
Proof.
  revert pre s. induction l as [|y l IH]; intros pre s; [done|].
  cbn [length seq foldl]. rewrite list_lookup_middle by done. simpl.
  specialize (IH (pre ++ [y]) (g y s)).
  rewrite <-app_assoc, length_app, Nat.add_1_r in IH. exact IH.
Qed.

(** The orphans of a frame, one per pole. *)
Lemma orphans_spec (frame : nat) (poles : list Pole) (l : t) :
  let l' := foldl (λ l p, registerOrphan frame p (ensure_frame frame l)) l
              poles in
  entries frame l'
  = entries frame l ++ imap (λ i p, Entry (ncells l + 1 + i) None p) poles
  ∧ ncells l' = ncells l + length poles
  ∧ values l' = values l
  ∧ (∀ g, g ≠ frame → entries g l' = entries g l)
  ∧ (∀ g, g < length (stack l) → g ≠ frame → stack l' !! g = stack l !! g).
Proof.
  revert l. induction poles as [|p poles IH]; intros l.
  { simpl. rewrite app_nil_r. repeat split; auto with lia. }
  cbn [foldl]. cbv zeta.
  set (l1 := registerOrphan frame p (ensure_frame frame l)).
  destruct (IH l1) as (IH1 & IH2 & IH3 & IH4 & IH5). cbv zeta in *.
  assert (entries frame l1 = entries frame l ++ [Entry (S (ncells l)) None p])
    as Hl1.
  { unfold l1, registerOrphan. rewrite entries_append_entry, decide_True by done.
    apply (f_equal (λ es, es ++ _)), (entries_ensure_frame frame frame l). }
  split; [|split; [|split; [|split]]].
  - rewrite IH1, Hl1, <-app_assoc. f_equal. simpl. f_equal.
    + f_equal. simpl. lia.
    + apply imap_ext. intros i q _. simpl. f_equal. lia.
  - rewrite IH2. simpl. lia.
  - by rewrite IH3.
  - intros g Hg. rewrite IH4 by done. unfold l1, registerOrphan.
    rewrite entries_append_entry, decide_False by done.
    apply (entries_ensure_frame frame g l).
  - intros g Hg Hne. rewrite IH5.
    + unfold l1, registerOrphan, append_entry, ensure_frame. simpl.
      rewrite list_lookup_alter_ne by done.
      rewrite <-app_assoc. by rewrite lookup_app_l.
    + unfold l1, registerOrphan, append_entry, ensure_frame. simpl.
      rewrite length_alter, !length_app. lia.
    + done.
Qed.

(** *** Registrations seen from one frame *)

Section Frame.
Context (frame N0 : nat).
Implicit Types (I : nat → list entry → Prop) (l : t).

(** The invariant [I] holds of the frame in the lineage [l]. *)
Local Abbreviation holds I l := (I (ncells l) (entries frame l)).

Lemma holds_ensure_frame I l : holds I l → holds I (ensure_frame frame l).
Proof. by rewrite entries_ensure_frame. Qed.

Lemma entries_registerOrphan p l :
  entries frame (registerOrphan frame p l)
  = entries frame l ++ [Entry (S (ncells l)) None p].
Proof.
  unfold registerOrphan. by rewrite entries_append_entry, decide_True.
Qed.

Lemma entries_registerChild pid p l :
  entries frame (registerChild pid frame p l)
  = entries frame l ++ [Entry (S (ncells l)) (Some pid) p].
Proof.
  unfold registerChild. by rewrite entries_append_entry, decide_True.
Qed.

Lemma holds_registerOrphan I p l :
  keeps N0 I → holds I l → holds I (registerOrphan frame p l).
Proof. intros (HI & _) Hl. rewrite entries_registerOrphan. by apply HI. Qed.

Lemma holds_registerChild I pid p l :
  keeps N0 I → holds I l → holds I (registerChild pid frame p l).
Proof. intros (_ & HI & _) Hl. rewrite entries_registerChild. by apply HI. Qed.

Lemma holds_registerChildren I pid (children : list (nat * Pole)) l :
  keeps N0 I → holds I l →
  holds I (foldl (λ l np, registerChild pid frame np.2 l) l children).
Proof.
  intros HI. revert l. induction children as [|np children IH]; intros l Hl;
    [done|].
  cbn [foldl]. by apply IH, holds_registerChild.
Qed.

Lemma holds_registerAttribution I pid (children : list (nat * Pole)) l :
  keeps N0 I → pid ≤ N0 → holds I l →
  holds I (registerAttribution pid frame children l).
Proof.
  intros HI Hpid Hl. unfold registerAttribution.
  destruct children as [|[n p] [|np children]].
  - done.
  - rewrite entries_append_entry, decide_True by done.
    by apply (proj2 (proj2 HI)).
  - by apply holds_registerChildren.
Qed.

Lemma keeps_ids_taken : keeps N0 (ids_taken N0).
Proof.
  unfold ids_taken. split; [|split].
  - intros n es p [Hn Hes]. split; [lia|].
    apply Forall_app. split; [|by repeat constructor].
    eapply Forall_impl; [exact Hes|]. simpl. lia.
  - intros n es pid p [Hn Hes]. split; [lia|].
    apply Forall_app. split; [|by repeat constructor].
    eapply Forall_impl; [exact Hes|]. simpl. lia.
  - intros n es pid p Hpid [Hn Hes]. split; [lia|].
    apply Forall_app. split; [exact Hes|]. repeat constructor. simpl. lia.
Qed.

Lemma keeps_child_of pid c : keeps N0 (child_of N0 pid c).
Proof.
  unfold child_of. split; [|split].
  - intros n es p (Hc & [q Hq] & Hsole). split; [lia|]. split.
    + exists q. apply elem_of_app. by left.
    + intros e [He|He%list_elem_of_singleton]%elem_of_app Hce; [by apply Hsole|].
      subst e. simpl in Hce. lia.
  - intros n es pid' p (Hc & [q Hq] & Hsole). split; [lia|]. split.
    + exists q. apply elem_of_app. by left.
    + intros e [He|He%list_elem_of_singleton]%elem_of_app Hce; [by apply Hsole|].
      subst e. simpl in Hce. lia.
  - intros n es pid' p Hpid (Hc & [q Hq] & Hsole). split; [lia|]. split.
    + exists q. apply elem_of_app. by left.
    + intros e [He|He%list_elem_of_singleton]%elem_of_app Hce; [by apply Hsole|].
      subst e. simpl in Hce. lia.
Qed.

(** A division: two children registered for [pid] get the next two ids, and
    each is a child of [pid] only. *)
Lemma division_children pid n1 n2 (p1 p2 : Pole) l :
  holds (ids_taken N0) l →
  let l' := registerAttribution pid frame [(n1, p1); (n2, p2)] l in
  holds (child_of N0 pid (ncells l + 1)) l'
  ∧ holds (child_of N0 pid (ncells l + 2)) l'
  ∧ Entry (ncells l + 1) (Some pid) p1 ∈ entries frame l'
  ∧ Entry (ncells l + 2) (Some pid) p2 ∈ entries frame l'.
Proof.
  intros [HN Hes]. cbv zeta. cbn [registerAttribution foldl snd].
  rewrite !entries_registerChild. cbn [registerChild append_entry ncells].
  rewrite Nat.add_1_r. replace (ncells l + 2) with (S (S (ncells l))) by lia.
  set (e1 := Entry (S (ncells l)) (Some pid) p1).
  set (e2 := Entry (S (S (ncells l))) (Some pid) p2).
  assert (∀ e, e ∈ (entries frame l ++ [e1]) ++ [e2] →
               e ∈ entries frame l ∨ e = e1 ∨ e = e2) as Hcases.
  { intros e. rewrite !elem_of_app, !list_elem_of_singleton. tauto. }
  assert (e1 ∈ (entries frame l ++ [e1]) ++ [e2]) as Hin1.
  { rewrite !elem_of_app, !list_elem_of_singleton. tauto. }
  assert (e2 ∈ (entries frame l ++ [e1]) ++ [e2]) as Hin2.
  { rewrite !elem_of_app, !list_elem_of_singleton. tauto. }
  assert (∀ e, e ∈ entries frame l → cell e ≤ ncells l) as Hold.
  { by apply Forall_forall. }
  unfold child_of. repeat split; try lia; eauto.
  - intros e [He|[->| ->]]%Hcases Hce; [|done|simpl in Hce; lia].
    apply Hold in He. lia.
  - intros e [He|[->| ->]]%Hcases Hce; [|simpl in Hce; lia|done].
    apply Hold in He. lia.
Qed.

End Frame.

(** *** The other frames are left alone *)

Lemma lookup_stack_ensure_frame (frame g : nat) (l : t) es :
  stack l !! g = Some es → stack (ensure_frame frame l) !! g = Some es.
Proof.
  intros Hg. unfold ensure_frame. cbn [stack].
  rewrite lookup_app_l; [done|]. by eapply lookup_lt_Some.
Qed.

Lemma lookup_stack_append_entry (frame g : nat) (e : entry) (l : t) es :
  g ≠ frame → stack l !! g = Some es →
  stack (append_entry frame e l) !! g = Some es.
Proof.
  intros Hne Hg. unfold append_entry. cbn [stack].
  rewrite list_lookup_alter_ne by done. by apply lookup_stack_ensure_frame.
Qed.

Lemma lookup_stack_registerOrphan (frame g : nat) (p : Pole) (l : t) es :
  g ≠ frame → stack l !! g = Some es →
  stack (registerOrphan frame p l) !! g = Some es.
Proof. intros. by apply lookup_stack_append_entry. Qed.

Lemma lookup_stack_registerAttribution (pid frame g : nat)
    (children : list (nat * Pole)) (l : t) es :
  g ≠ frame → stack l !! g = Some es →
  stack (registerAttribution pid frame children l) !! g = Some es.
Proof.
  intros Hne Hg. unfold registerAttribution.
  assert (∀ l, stack l !! g = Some es →
            stack (foldl (λ l np, registerChild pid frame np.2 l) l children)
              !! g = Some es) as Hfold.
  { induction children as [|np children IH]; intros l' Hl'; [done|].
    cbn [foldl]. apply IH. by apply lookup_stack_append_entry. }
  destruct children as [|[n p] [|np children]]; [done| |by apply Hfold].
  by apply lookup_stack_append_entry.
Qed.

Lemma foldl_preserves {S X : Type} (I : S → Prop) (g : X → S → S)
    (xs : list X) (s : S) :
  (∀ x s, x ∈ xs → I s → I (g x s)) → I s → I (foldl (λ s x, g x s) s xs).
Proof.
  revert s. induction xs as [|x xs IH]; intros s Hg Hs; [done|].
  cbn [foldl]. apply IH.
  - intros y s' Hy. apply Hg. by right.
  - apply Hg; [by left|done].
Qed.

End LineageFacts.

(** ** The region methods *)

Module ROIFacts.
Import Py PyFacts Arrays Windows Tracking ROI.

Section Methods.
Context {X : Type} (utils : utilities X).

Lemma quiet_update cell frame attrib poles :
  no_runtime_error (Lineage.update cell frame attrib poles).
Proof.
  destruct cell as [o|]; [|apply quiet_modify]. simpl.
  apply quiet_bind; [apply quiet_get|]. intros l.
  apply quiet_bind; [destruct frame; [done|apply quiet_index]|]. intros prev.
  apply quiet_bind; [apply quiet_index|]. intros pid. apply quiet_modify.
Qed.

(** C4.  Requesting the tracking inputs of a frame [f] that the mask
    sequence does not reach yet raises the "Segmentation incomplete"
    [RuntimeError], and leaves the region as it was. *)
Theorem get_tracking_inputs_incomplete (roi : ROI.t) (f : nat) :
  length (seg_stack roi) ≤ f →
  get_tracking_inputs utils (Some f) roi
  = (Raised (segmentation_incomplete f), roi).
Proof.
  intros Hlen. unfold get_tracking_inputs.
  rewrite (run_bind get _ roi roi roi) by done. simpl.
  by rewrite bool_decide_true.
Qed.

Lemma get_tracking_inputs_ready (roi : ROI.t) (f : nat) (msg : string) :
  f < length (seg_stack roi) →
  (get_tracking_inputs utils (Some f) roi).1 ≠ Raised (RuntimeError msg).
Proof.
  intros Hlen. unfold get_tracking_inputs.
  rewrite (run_bind get _ roi roi roi) by done. simpl.
  rewrite bool_decide_false by lia.
  destruct (no_previous_cells _ _).
  - apply quiet_bind; [apply quiet_array|]. intros mask.
    apply quiet_bind; [|intros; apply quiet_ret].
    apply quiet_zoom, quiet_for_each. intros c.
    apply quiet_bind; [apply quiet_index|]. intros p. apply quiet_modify.
  - apply quiet_bind; [apply quiet_array|]. intros mask.
    apply quiet_bind; [|intros; apply quiet_ret].
    apply quiet_collect. intros cell.
    apply quiet_bind; [apply quiet_index|]. intros curr.
    apply quiet_bind; [apply quiet_index|]. intros prev.
    apply quiet_bind; [apply quiet_array|]. intros seg. apply quiet_ret.
Qed.

Lemma process_segmentation_outputs_run (roi : ROI.t) (y : list Img)
    (frame : option nat) windows (i0 y1 : Img) :
  img_stack roi !! 0 = Some i0 → stitch_outputs y windows = Some y1 →
  process_segmentation_outputs utils y frame windows roi
  = (Returned tt,
     set_seg_stack
       (store_mask frame
          (opencv_areafilt utils
             (crop (binarize y1) (0, (shape i0).1) (0, (shape i0).2)))
          (seg_stack roi)) roi).
Proof.
  intros Hi0 Hy1. unfold process_segmentation_outputs. rewrite Hy1.
  rewrite (run_bind (mret y1) _ roi roi y1) by done.
  rewrite (run_bind get _ roi roi roi) by done.
  by rewrite (run_bind _ _ _ _ _ (run_index _ _ _ roi Hi0)).
Qed.

Lemma store_mask_later (seg : list (option Mask)) (f : nat) (y : Mask) :
  length seg ≤ f →
  store_mask (Some f) y seg = seg ++ replicate (f - length seg) None ++ [Some y].
Proof.
  intros Hlen. unfold store_mask. rewrite bool_decide_true by done.
  replace (f + 1 - length seg) with (f - length seg + 1) by lia.
  rewrite replicate_add. simpl.
  rewrite insert_app_r_alt by lia. f_equal.
  rewrite insert_app_r_alt by (rewrite length_replicate; lia).
  rewrite length_replicate.
  by replace (f - length seg - (f - length seg)) with 0 by lia.
Qed.

Lemma store_mask_later_spec (seg : list (option Mask)) (f : nat) (y : Mask) :
  length seg ≤ f →
  let seg' := store_mask (Some f) y seg in
  length seg' = f + 1
  ∧ seg' !! f = Some (Some y)
  ∧ (∀ i, i < length seg → seg' !! i = seg !! i)
  ∧ (∀ i, length seg ≤ i < f → seg' !! i = Some None).
Proof.
  intros Hlen. cbv zeta. rewrite store_mask_later by done.
  split; [rewrite !length_app, length_replicate; simpl; lia|].
  split; [|split].
  - rewrite lookup_app_r by lia.
    rewrite lookup_app_r by (rewrite length_replicate; lia).
    rewrite length_replicate.
    by replace (f - length seg - (f - length seg)) with 0 by lia.
  - intros i Hi. by rewrite lookup_app_l.
  - intros i Hi. rewrite lookup_app_r by lia.
    rewrite lookup_app_l by (rewrite length_replicate; lia).
    apply lookup_replicate_2. lia.
Qed.

(** C6.  Storing a segmentation output out of order: when the mask sequence
    has length [L <= f], the call returns, the sequence then has length
    [f + 1], holds the processed mask at index [f] and the placeholder
    [None] at the indices from [L] up to [f], and the masks stored below
    [L] are unchanged; nothing else of the region changes.  (The processed
    mask exists: the region holds its first image, and the output batch can
    be stitched.) *)
Theorem process_segmentation_outputs_out_of_order (roi : ROI.t)
    (y : list Img) (f : nat) windows (i0 y1 : Img) :
  img_stack roi !! 0 = Some i0 → stitch_outputs y windows = Some y1 →
  length (seg_stack roi) ≤ f →
  let mask := opencv_areafilt utils
                (crop (binarize y1) (0, (shape i0).1) (0, (shape i0).2)) in
  ∃ seg',
    process_segmentation_outputs utils y (Some f) windows roi
    = (Returned tt, set_seg_stack seg' roi)
    ∧ length seg' = f + 1
    ∧ seg' !! f = Some (Some mask)
    ∧ (∀ i, i < length (seg_stack roi) → seg' !! i = seg_stack roi !! i)
    ∧ (∀ i, length (seg_stack roi) ≤ i < f → seg' !! i = Some None).
Proof.
  intros Hi0 Hy1 Hlen mask. exists (store_mask (Some f) mask (seg_stack roi)).
  split; [by apply process_segmentation_outputs_run|].
  by apply store_mask_later_spec.
Qed.

(** C10.  [get_tracking_inputs] raises its "Segmentation incomplete" error
    exactly when the requested frame index is at or past the length of the
    mask sequence.  A placeholder passes the check: after a mask was stored
    out of order for a later frame [g], the slot of frame [f] exists and
    holds [None], and requesting the tracking inputs of [f] raises no
    [RuntimeError] at all. *)
Theorem get_tracking_inputs_check (roi : ROI.t) (f : nat) :
  ((get_tracking_inputs utils (Some f) roi).1
     = Raised (segmentation_incomplete f)
   ↔ length (seg_stack roi) ≤ f)
  ∧ (∀ (y : list Img) (g : nat) windows (i0 y1 : Img),
       img_stack roi !! 0 = Some i0 → stitch_outputs y windows = Some y1 →
       length (seg_stack roi) ≤ f < g →
       ∃ roi1,
         process_segmentation_outputs utils y (Some g) windows roi
         = (Returned tt, roi1)
         ∧ seg_stack roi1 !! f = Some None
         ∧ ∀ msg, (get_tracking_inputs utils (Some f) roi1).1
                  ≠ Raised (RuntimeError msg)).
Proof.
  split.
  - split.
    + intros Hraise. destruct (decide (length (seg_stack roi) ≤ f)); [done|].
      by apply get_tracking_inputs_ready in Hraise; [|lia].
    + intros Hlen. unfold get_tracking_inputs.
      rewrite (run_bind get _ roi roi roi) by done. simpl.
      by rewrite bool_decide_true.
  - intros y g windows i0 y1 Hi0 Hy1 Hfg.
    eexists. split; [by apply process_segmentation_outputs_run|].
    cbn [seg_stack set_seg_stack].
    edestruct (store_mask_later_spec (seg_stack roi) g)
      as (Hlen & _ & _ & Hnone); [lia|].
    split; [by apply Hnone|].
    intros msg. apply get_tracking_inputs_ready. cbn [seg_stack set_seg_stack].
    rewrite Hlen. lia.
Qed.

Lemma no_previous_cells_true (cn : list (list nat)) (f : nat) :
  f = 0 ∨ cn !! (f - 1) = Some [] → no_previous_cells cn f = true.
Proof.
  intros [->|Hprev]; [done|]. unfold no_previous_cells. rewrite Hprev.
  rewrite (bool_decide_true (length [] = 0)) by done.
  by rewrite !orb_true_r.
Qed.


End Methods.

Example store_mask_out_of_order :
  store_mask (Some 3) Demo.mask1 [Some Demo.mask0]
  = [Some Demo.mask0; None; None; Some Demo.mask1].
Proof. reflexivity. Qed.

Example store_mask_in_place :
  store_mask (Some 0) Demo.mask1 [Some Demo.mask0; None] = [Some Demo.mask1; None].
Proof. reflexivity. Qed.

(** On the placeholder of frame 3 the check passes, and the helper that is
    handed [None] for the mask raises. *)
Example get_tracking_inputs_placeholder :
  let roi1 :=
    (process_segmentation_outputs Demo.utils [Demo.img] (Some 4) None
       Demo.roi).2 in
  seg_stack roi1 !! 3 = Some None
  ∧ (get_tracking_inputs Demo.utils (Some 3) roi1).1 = Raised TypeError.
Proof. vm_compute. done. Qed.

Example get_tracking_inputs_first_frame :
  Lineage.cellnumbers
    (lineage (get_tracking_inputs Demo.utils (Some 0)
                (set_lineage Lineage.empty Demo.roi)).2)
  = [[1; 2]].
Proof. vm_compute. reflexivity. Qed.

Lemma get_tracking_inputs_incomplete_witness :
  get_tracking_inputs Demo.utils (Some 2) Demo.roi
  = (Raised (segmentation_incomplete 2), Demo.roi).
Proof.
  apply (get_tracking_inputs_incomplete Demo.utils Demo.roi 2). simpl. lia.
Defined.

Lemma process_segmentation_outputs_out_of_order_witness :
  let mask := opencv_areafilt Demo.utils
                (crop (binarize Demo.img)
                   (0, (shape Demo.img).1) (0, (shape Demo.img).2)) in
  ∃ seg',
    process_segmentation_outputs Demo.utils [Demo.img] (Some 4) None Demo.roi
    = (Returned tt, set_seg_stack seg' Demo.roi)
    ∧ length seg' = 4 + 1
    ∧ seg' !! 4 = Some (Some mask)
    ∧ (∀ i, i < length (seg_stack Demo.roi) →
            seg' !! i = seg_stack Demo.roi !! i)
    ∧ (∀ i, length (seg_stack Demo.roi) ≤ i < 4 → seg' !! i = Some None).
Proof.
  apply (process_segmentation_outputs_out_of_order Demo.utils Demo.roi
           [Demo.img] 4 None Demo.img Demo.img).
  - reflexivity.
  - reflexivity.
  - simpl. lia.
Defined.

Lemma get_tracking_inputs_check_witness :
  ∃ roi1,
    process_segmentation_outputs Demo.utils [Demo.img] (Some 4) None Demo.roi
    = (Returned tt, roi1)
    ∧ seg_stack roi1 !! 3 = Some None
    ∧ ∀ msg, (get_tracking_inputs Demo.utils (Some 3) roi1).1
             ≠ Raised (RuntimeError msg).
Proof.
  apply (proj2 (get_tracking_inputs_check Demo.utils Demo.roi 3)
           [Demo.img] 4 None Demo.img Demo.img).
  - reflexivity.
  - reflexivity.
  - simpl. lia.
Defined.


End ROIFacts.

(** ** The tracking assigner *)

Module TrackingFacts.
Import Arrays Tracking.

Example getAttributions_division :
  getAttributions [[9 # 10; 9 # 10]]%Q = [[1; 1]]%Z.
Proof. vm_compute. reflexivity. Qed.

Example nonzero_row : nonzero [0; 1; 0; 1]%Z = [1; 3].
Proof. vm_compute. reflexivity. Qed.

Lemma elem_of_nonzero (r : list Z) (n : nat) :
  n ∈ nonzero r ↔ ∃ v, r !! n = Some v ∧ v ≠ 0%Z.
Proof.
  unfold nonzero. rewrite list_elem_of_fmap. split.
  - intros ([i v] & -> & Hin). apply list_elem_of_filter in Hin as [Hv Hin].
    apply elem_of_lookup_imap in Hin as (j & w & [= -> ->] & Hj). eauto.
  - intros (v & Hn & Hv). exists (n, v). split; [done|].
    apply list_elem_of_filter. split; [done|].
    apply (elem_of_lookup_imap_2 pair). done.
Qed.

Lemma get2_getAttributions (S : list (list Q)) (o n : nat) :
  get2 (getAttributions S) o n
  = (λ s, if Qlt_le_dec tau s then 1%Z else 0%Z) <$> get2 S o n.
Proof.
  unfold get2, getAttributions. rewrite list_lookup_fmap.
  destruct (S !! o) as [r|]; [|done]. simpl. apply list_lookup_fmap.
Qed.

(** C2.  The attribution matrix is the score matrix thresholded entry by
    entry: it has an entry wherever the scores have one, the entry is 0 or
    1, and [A[o][n] = 1] exactly when [S[o][n] > 0.5].  Nothing couples the
    entries: an old cell can be attributed to two new cells (as with the
    scores [[0.9, 0.9]]), and a new cell can be attributed to no old cell
    (the second one with the scores [[0.9, 0.1]]). *)
Theorem getAttributions_threshold :
  (∀ (S : list (list Q)) (o n : nat),
     get2 (getAttributions S) o n
     = (λ s, if Qlt_le_dec tau s then 1%Z else 0%Z) <$> get2 S o n
     ∧ (get2 (getAttributions S) o n = Some 1%Z
        ↔ ∃ s, get2 S o n = Some s ∧ (1 # 2 < s)%Q))
  ∧ (∃ (S : list (list Q)) (o n1 n2 : nat),
       n1 ≠ n2 ∧ nonzero (row (getAttributions S) o) = [n1; n2])
  ∧ (∃ (S : list (list Q)) (n : nat),
       n < (shape S).2 ∧ nonzero (column (getAttributions S) n) = []).
Proof.
  split; [|split].
  - intros S o n. split; [apply get2_getAttributions|].
    rewrite get2_getAttributions. destruct (get2 S o n) as [s|]; simpl.
    + destruct (Qlt_le_dec tau s) as [Hs|Hs]; split.
      * intros _. by exists s.
      * done.
      * done.
      * intros (s' & [= <-] & Hlt). unfold tau in Hs.
        by apply Qle_not_lt in Hs.
    + split; [done|]. by intros (s & ? & _).
  - exists [[9 # 10; 9 # 10]]%Q, 0, 0, 1. split; [done|]. vm_compute. done.
  - exists [[9 # 10; 1 # 10]]%Q, 1. split; [simpl; lia|]. vm_compute. done.
Qed.

End TrackingFacts.

(** ** Divisions *)

Module DivisionFacts.
Import Py PyFacts Arrays Tracking TrackingFacts ROI LineageFacts.

Lemma collect_poles (poles : list Lineage.Pole) (attrib : list nat)
    (vs : list Lineage.Pole) :
  Forall2 (λ i v, poles !! i = Some v) attrib vs → vs = poles_of poles attrib.
Proof.
  induction 1 as [|i v attrib vs Hi _ IH]; [done|].
  unfold poles_of. rewrite fmap_cons, Hi. simpl. by rewrite IH.
Qed.

Lemma nonzero_lt (A : list (list Z)) (poles : list Lineage.Pole) (o n : nat) :
  Forall (λ r, length r ≤ length poles) A → n ∈ nonzero (row A o) →
  n < length poles.
Proof.
  intros HA (v & Hn & _)%elem_of_nonzero. unfold row in Hn.
  destruct (A !! o) as [r|] eqn:Hr; [|done]. simpl in Hn.
  apply lookup_lt_Some in Hn.
  pose proof (proj1 (Forall_lookup _ _) HA o r Hr) as Hlen. simpl in Hlen. lia.
Qed.

Lemma run_update_lineage (A : list (list Z)) (poles : list Lineage.Pole)
    (f : nat) (l0 : Lineage.t) (pes : list Lineage.entry) :
  Lineage.stack l0 !! f = Some pes → length A ≤ length pes →
  Forall (λ r, length r ≤ length poles) A →
  update_lineage A poles (S f) l0
  = (Returned tt,
     foldl (λ l n, new_cell_step A poles (S f) n l)
       (foldl (λ l o, old_cell_step A poles (Lineage.cell <$> pes) (S f) o l)
          l0 (seq 0 (length A)))
       (seq 0 (shape A).2)).
Proof.
  intros Hpes Hrows Hcols. unfold update_lineage.
  set (I := λ l : Lineage.t, Lineage.stack l !! f = Some pes).
  destruct (run_for_each I
              (old_cell_step A poles (Lineage.cell <$> pes) (S f))
              (λ o, let attrib := nonzero (row A o) in
                    new_cells_poles ← collect (index poles) attrib;
                    Lineage.update (Some o) (S f) attrib new_cells_poles)
              (seq 0 (shape A).1)) with (s := l0) as [Hold Hl1]; [|done|].
  { intros o l Ho Hl. apply elem_of_seq in Ho. simpl in Ho. cbv zeta. split.
    - destruct (run_collect_index poles (nonzero (row A o)) l)
        as (vs & Hvs & Hlook).
      { apply Forall_forall. intros n Hn. by eapply nonzero_lt. }
      rewrite (run_bind _ _ _ _ _ Hvs). apply collect_poles in Hlook as ->.
      unfold Lineage.update.
      rewrite (run_bind get _ l l l) by done.
      assert (Lineage.cellnumbers l !! f = Some (Lineage.cell <$> pes)) as Hcn.
      { unfold Lineage.cellnumbers. by rewrite list_lookup_fmap, Hl. }
      rewrite (run_bind _ _ _ _ _ (run_index _ _ _ l Hcn)).
      destruct (lookup_lt_is_Some_2 (Lineage.cell <$> pes) o) as [pid Hpid].
      { rewrite length_fmap. lia. }
      rewrite (run_bind _ _ _ _ _ (run_index _ _ _ l Hpid)).
      unfold old_cell_step. by rewrite Hpid.
    - unfold I, old_cell_step. apply lookup_stack_registerAttribution; [lia|].
      by apply lookup_stack_ensure_frame. }
  rewrite (run_bind _ _ _ _ _ Hold). unfold shape at 2. cbn [fst].
  set (l1 := foldl _ l0 (seq 0 (length A))) in *.
  destruct (run_for_each (λ _, True) (new_cell_step A poles (S f))
              (λ n, let attrib := nonzero (column A n) in
                    p ← index poles n;
                    if bool_decide (length attrib = 0)
                    then Lineage.update None (S f) [n] [p]
                    else mret tt)
              (seq 0 (shape A).2)) with (s := l1) as [Hnew _]; [|done|done].
  intros n l Hn _. split; [|done]. apply elem_of_seq in Hn. simpl in Hn.
  assert (n < length poles) as Hlt.
  { unfold shape in Hn. simpl in Hn. destruct A as [|r A]; [simpl in Hn; lia|].
    apply Forall_inv in Hcols. simpl in Hn. lia. }
  destruct (lookup_lt_is_Some_2 poles n Hlt) as [p Hp]. cbv zeta.
  rewrite (run_bind _ _ _ _ _ (run_index _ _ _ l Hp)).
  unfold new_cell_step. rewrite Hp. by case_bool_decide.
Qed.

Section Steps.
Context (A : list (list Z)) (poles : list Lineage.Pole)
  (pes : list Lineage.entry) (frame N0 : nat)
  (I : nat → list Lineage.entry → Prop).
Hypothesis Hpes : Forall (λ e, Lineage.cell e ≤ N0) pes.
Hypothesis HI : Lineage.keeps N0 I.

Lemma parent_id_taken (o : nat) : default 0 ((Lineage.cell <$> pes) !! o) ≤ N0.
Proof using Hpes.
  rewrite list_lookup_fmap. destruct (pes !! o) as [e|] eqn:He; simpl; [|lia].
  by apply (proj1 (Forall_lookup _ _) Hpes o e).
Qed.

Lemma holds_old_cell_step (o : nat) (l : Lineage.t) :
  I (Lineage.ncells l) (Lineage.entries frame l) →
  let l' := old_cell_step A poles (Lineage.cell <$> pes) frame o l in
  I (Lineage.ncells l') (Lineage.entries frame l').
Proof using Hpes HI.
  intros Hl. unfold old_cell_step.
  apply (holds_registerAttribution frame N0); [done|apply parent_id_taken|].
  by apply holds_ensure_frame.
Qed.

Lemma holds_new_cell_step (n : nat) (l : Lineage.t) :
  I (Lineage.ncells l) (Lineage.entries frame l) →
  let l' := new_cell_step A poles frame n l in
  I (Lineage.ncells l') (Lineage.entries frame l').
Proof using HI.
  intros Hl. unfold new_cell_step. case_bool_decide; [|done].
  apply (holds_registerOrphan frame N0); [done|].
  by apply holds_ensure_frame.
Qed.

Lemma holds_old_cells (os : list nat) (l : Lineage.t) :
  I (Lineage.ncells l) (Lineage.entries frame l) →
  let l' := foldl (λ l o, old_cell_step A poles (Lineage.cell <$> pes) frame o l)
              l os in
  I (Lineage.ncells l') (Lineage.entries frame l').
Proof using Hpes HI.
  intros Hl.
  apply (foldl_preserves
           (λ l, I (Lineage.ncells l) (Lineage.entries frame l))
           (old_cell_step A poles (Lineage.cell <$> pes) frame)); [|done].
  intros o l' _. apply holds_old_cell_step.
Qed.

Lemma holds_new_cells (ns : list nat) (l : Lineage.t) :
  I (Lineage.ncells l) (Lineage.entries frame l) →
  let l' := foldl (λ l n, new_cell_step A poles frame n l) l ns in
  I (Lineage.ncells l') (Lineage.entries frame l').
Proof using HI.
  intros Hl.
  apply (foldl_preserves
           (λ l, I (Lineage.ncells l) (Lineage.entries frame l))
           (new_cell_step A poles frame)); [|done].
  intros n l' _. apply holds_new_cell_step.
Qed.

End Steps.

Lemma keeps_elem_of (N0 : nat) (e : Lineage.entry) :
  Lineage.keeps N0 (λ _ es, e ∈ es).
Proof.
  repeat split; intros; apply elem_of_app; by left.
Qed.

Lemma keeps_and (N0 : nat) (I J : nat → list Lineage.entry → Prop) :
  Lineage.keeps N0 I → Lineage.keeps N0 J →
  Lineage.keeps N0 (λ n es, I n es ∧ J n es).
Proof.
  intros (I1 & I2 & I3) (J1 & J2 & J3). split; [|split].
  - intros n es p [? ?]. split; [by apply I1|by apply J1].
  - intros n es pid p [? ?]. split; [by apply I2|by apply J2].
  - intros n es pid p ? [? ?]. split; [by apply I3|by apply J3].
Qed.

(** The division of the old cell [o], seen in the lineage after both loops. *)
Lemma division_recorded (A : list (list Z)) (poles : list Lineage.Pole)
    (pes : list Lineage.entry) (f o pid n1 n2 : nat) (l0 : Lineage.t) :
  let frame := S f in
  let N0 := Lineage.ncells l0 in
  Forall (λ e, Lineage.cell e ≤ N0) pes →
  Forall (λ e, Lineage.cell e ≤ N0) (Lineage.entries frame l0) →
  Forall (λ r, length r ≤ length poles) A →
  (Lineage.cell <$> pes) !! o = Some pid →
  nonzero (row A o) = [n1; n2] →
  let l' :=
    foldl (λ l n, new_cell_step A poles frame n l)
      (foldl (λ l o, old_cell_step A poles (Lineage.cell <$> pes) frame o l)
         l0 (seq 0 (length A)))
      (seq 0 (shape A).2) in
  ∃ c1 c2 p1 p2,
    c1 ≠ c2 ∧ poles !! n1 = Some p1 ∧ poles !! n2 = Some p2
    ∧ Lineage.child_of N0 pid c1 (Lineage.ncells l') (Lineage.entries frame l')
    ∧ Lineage.child_of N0 pid c2 (Lineage.ncells l') (Lineage.entries frame l')
    ∧ Lineage.Entry c1 (Some pid) p1 ∈ Lineage.entries frame l'
    ∧ Lineage.Entry c2 (Some pid) p2 ∈ Lineage.entries frame l'.
Proof.
  intros frame N0 Hpes Hes Hcols Hpid Hrow.
  assert (o < length A) as Ho.
  { unfold row in Hrow. destruct (A !! o) as [r|] eqn:Hr; [|done].
    by eapply lookup_lt_Some. }
  destruct (lookup_lt_is_Some_2 poles n1) as [p1 Hp1].
  { apply (nonzero_lt A poles o); [done|]. rewrite Hrow. by left. }
  destruct (lookup_lt_is_Some_2 poles n2) as [p2 Hp2].
  { apply (nonzero_lt A poles o); [done|]. rewrite Hrow. right. by left. }
  replace (length A) with (o + S (length A - S o)) by lia.
  rewrite seq_app. cbn [seq]. rewrite foldl_app. cbn [foldl].
  set (l1 := foldl _ l0 (seq 0 o)).
  assert (Lineage.ids_taken N0 (Lineage.ncells l1) (Lineage.entries frame l1))
    as Hl1.
  { apply (holds_old_cells A poles pes frame N0); [done|apply keeps_ids_taken|].
    by split. }
  set (l2 := old_cell_step A poles (Lineage.cell <$> pes) frame (0 + o) l1).
  destruct (division_children frame N0 pid n1 n2 p1 p2
              (Lineage.ensure_frame frame l1))
    as (Hc1 & Hc2 & He1 & He2); [by apply holds_ensure_frame|].
  assert (l2 = Lineage.registerAttribution pid frame [(n1, p1); (n2, p2)]
                 (Lineage.ensure_frame frame l1)) as Hl2.
  { unfold l2, old_cell_step. cbn [Nat.add]. rewrite Hpid, Hrow.
    unfold poles_of. by rewrite !fmap_cons, Hp1, Hp2. }
  rewrite <-Hl2 in Hc1, Hc2, He1, He2. cbn [Lineage.ensure_frame Lineage.ncells] in *.
  set (N1 := Lineage.ncells l1) in *.
  exists (N1 + 1), (N1 + 2), p1, p2.
  split; [lia|]. split; [done|]. split; [done|].
  set (J := λ (n : nat) (es : list Lineage.entry),
         (Lineage.child_of N0 pid (N1 + 1) n es
          ∧ Lineage.child_of N0 pid (N1 + 2) n es)
         ∧ (Lineage.Entry (N1 + 1) (Some pid) p1 ∈ es
            ∧ Lineage.Entry (N1 + 2) (Some pid) p2 ∈ es)).
  assert (Lineage.keeps N0 J) as HJ.
  { apply keeps_and; apply keeps_and;
      auto using keeps_child_of, keeps_elem_of. }
  cut (J (Lineage.ncells
            (foldl (λ l n, new_cell_step A poles frame n l)
               (foldl (λ l o, old_cell_step A poles (Lineage.cell <$> pes)
                                frame o l) l2 (seq (S (0 + o)) (length A - S o)))
               (seq 0 (shape A).2)))
         (Lineage.entries frame
            (foldl (λ l n, new_cell_step A poles frame n l)
               (foldl (λ l o, old_cell_step A poles (Lineage.cell <$> pes)
                                frame o l) l2 (seq (S (0 + o)) (length A - S o)))
               (seq 0 (shape A).2)))).
  { unfold J. tauto. }
  apply (holds_new_cells A poles frame N0 J HJ).
  apply (holds_old_cells A poles pes frame N0 J Hpes HJ).
  unfold J. tauto.
Qed.

Section Methods.
Context {X : Type} (utils : utilities X).


End Methods.

(** The scenario of one cell that divides: the orphan with id 1 of frame 0
    is attributed to both cells of frame 1, which become the cells 2 and 3,
    children of 1. *)
Example one_cell_divides :
  (ROI.lineage
     (process_tracking_outputs Demo.utils [] (Some 1) None Demo.roi).2).(Lineage.stack)
  = [[Lineage.Entry 1 None [(1, 0); (1, 2)]%Z];
     [Lineage.Entry 2 (Some 1) [(0, 0); (0, 2)]%Z;
      Lineage.Entry 3 (Some 1) [(2, 0); (2, 2)]%Z]].
Proof. vm_compute. reflexivity. Qed.


End DivisionFacts.

(** ** Feature values *)

Module FeatureFacts.
Import Lineage ROI.

Lemma lineage_eq (l1 l2 : Lineage.t) :
  stack l1 = stack l2 → ncells l1 = ncells l2 → values l1 = values l2 →
  l1 = l2.
Proof. destruct l1, l2. simpl. by intros -> -> ->. Qed.

Lemma morphological_features_again (features : list string)
    (cell frame : nat) (rotrect : Q * Q) (area : Q) (perimeter : nat)
    (l : Lineage.t) :
  let store := morphological_features features cell frame rotrect area
                 perimeter in
  store (store l) = store l.
Proof.
  cbv zeta. unfold morphological_features.
  destruct (bool_decide ("length" ∈ features)),
    (bool_decide ("width" ∈ features)), (bool_decide ("area" ∈ features)),
    (bool_decide ("perimeter" ∈ features)); cbn [orb];
    (apply lineage_eq; [done|done|]); unfold setvalue; cbn [values];
    apply map_eq; intros k; rewrite ?lookup_insert;
    repeat case_decide; congruence.
Qed.

(** C8.  Setting a feature value twice with the same cell id, frame, feature
    name and value leaves exactly what the first call left: the lineage is
    the same, the key holds the given value, the value map has the same
    number of entries, and every other key is untouched.  The call is a
    plain function: it raises nothing.  So are the morphological features
    that [extract_features] stores for one cell: storing them again changes
    nothing. *)
Theorem setvalue_idempotent (cellId frame : nat) (feature : string)
    (v : value) (l : Lineage.t) :
  let l1 := setvalue cellId frame feature v l in
  let l2 := setvalue cellId frame feature v l1 in
  l2 = l1
  ∧ getvalue cellId frame feature l2 = Some v
  ∧ size (values l2) = size (values l1)
  ∧ (∀ k, k ≠ (cellId, frame, feature) → values l2 !! k = values l !! k)
  ∧ (∀ features rotrect area perimeter,
       let store := morphological_features features cellId frame rotrect
                      area perimeter in
       store (store l) = store l).
Proof.
  cbv zeta.
  assert (setvalue cellId frame feature v (setvalue cellId frame feature v l)
          = setvalue cellId frame feature v l) as Heq.
  { unfold setvalue. cbn [stack ncells values]. by rewrite insert_insert_eq. }
  rewrite Heq. split; [done|]. split; [|split; [done|split]].
  - unfold getvalue, setvalue. cbn [values]. apply lookup_insert_eq.
  - intros k Hk. unfold setvalue. cbn [values]. by rewrite lookup_insert_ne.
  - intros. apply morphological_features_again.
Qed.

End FeatureFacts.

(** ** The drift corrector *)

Module DriftFacts.
Import Py PyFacts Drift Position.

Section Corrector.
Context {Frame Template SearchBox : Type}.
Context (candidates : Template → SearchBox → Frame → list (Z * Z))
  (score : Template → Frame → Z * Z → Q)
  (min_confidence : Q)
  (shift : Frame → Z * Z → Frame).

Lemma best_match_elem (scored : list ((Z * Z) * Q)) (c : (Z * Z) * Q) :
  best_match scored = Some c → c ∈ scored.
Proof.
  unfold best_match.
  assert (∀ acc, foldl (λ best c, match best with
                   | Some b => if Qlt_le_dec b.2 c.2 then Some c else Some b
                   | None => Some c
                   end) acc scored = Some c → c ∈ scored ∨ acc = Some c) as H.
  { induction scored as [|x scored IH]; intros acc Hc; [by right|].
    cbn [foldl] in Hc. apply IH in Hc as [Hc|Hc].
    - left. by right.
    - destruct acc as [b|].
      + destruct (Qlt_le_dec b.2 x.2); [|by right].
        injection Hc as <-. left. by left.
      + injection Hc as <-. left. by left. }
  intros Hc. by apply H in Hc as [Hc|Hc].
Qed.

Lemma correct_frame_fail_soft template box frame :
  (∀ s, s ∈ candidates template box frame →
        ¬ (min_confidence < score template frame s)%Q) →
  correct_frame candidates score min_confidence shift template box frame
  = (shift frame (0, 0)%Z, (0, 0)%Z, true).
Proof.
  intros Hlow. unfold correct_frame.
  destruct (best_match _) as [[s q]|] eqn:Hbest; [|done].
  apply best_match_elem, list_elem_of_fmap in Hbest as (s' & [= -> ->] & Hs').
  destruct (Qlt_le_dec _ _) as [Hlt|]; [|done]. by apply Hlow in Hlt.
Qed.

Lemma driftcorr_fail_soft frames template box k frame :
  frames !! k = Some frame →
  (∀ s, s ∈ candidates template box frame →
        ¬ (min_confidence < score template frame s)%Q) →
  let r := driftcorr candidates score min_confidence shift frames template
             box in
  r.1.2.1 !! k = Some 0%Z ∧ r.1.2.2 !! k = Some 0%Z ∧ k ∈ r.2
  ∧ length r.1.1 = length frames
  ∧ length r.1.2.1 = length frames ∧ length r.1.2.2 = length frames.
Proof.
  intros Hk Hlow. cbv zeta. unfold driftcorr. cbn [fst snd].
  pose proof (correct_frame_fail_soft template box frame Hlow) as Hc.
  rewrite !list_lookup_fmap, !length_fmap, Hk. simpl. rewrite Hc. simpl.
  repeat split.
  apply list_elem_of_fmap. exists (k, (shift frame (0, 0)%Z, (0, 0)%Z, true)).
  split; [done|]. apply list_elem_of_filter. split; [done|].
  apply (elem_of_lookup_imap_2 pair). by rewrite list_lookup_fmap, Hk, <-Hc.
Qed.

End Corrector.

Section Segment.
Context (candidates : attr → attr → ROI.Img → list (Z * Z))
  (score : attr → ROI.Img → Z * Z → Q)
  (min_confidence : Q)
  (shift : ROI.Img → Z * Z → ROI.Img).

Lemma run_getattr (d : gmap string attr) (name : string) (v : attr) :
  d !! name = Some v → getattr name d = (Returned v, d).
Proof.
  intros Hv. unfold getattr. rewrite (run_bind get _ d d d) by done.
  by rewrite Hv.
Qed.

(** C7.  With drift correction on, for every frame of the batch in which no
    candidate shift scores above the minimal confidence, the drift stage of
    [Position.segment] returns (it raises nothing), the drift values stored
    for that frame are the zero translation, and the frame is among those
    warned about; the stored drift values hold one translation per frame of
    the batch. *)
Theorem correct_drift_fail_soft (d : gmap string attr)
    (trans_frames : list ROI.Img) (on template box : attr) (k : nat)
    (frame : ROI.Img) :
  d !! "drift_correction" = Some on → truthy on = true →
  d !! "drifttemplate" = Some template → d !! "driftcorbox" = Some box →
  trans_frames !! k = Some frame →
  (∀ s, s ∈ candidates template box frame →
        ¬ (min_confidence < score template frame s)%Q) →
  ∃ frames warnings xs ys,
    correct_drift candidates score min_confidence shift trans_frames d
    = (Returned (frames, warnings), <["drift_values" := PyDrift xs ys]> d)
    ∧ xs !! k = Some 0%Z ∧ ys !! k = Some 0%Z ∧ k ∈ warnings
    ∧ length frames = length trans_frames
    ∧ length xs = length trans_frames ∧ length ys = length trans_frames.
Proof.
  intros Hon Htrue Htemplate Hbox Hk Hlow.
  destruct (driftcorr_fail_soft candidates score min_confidence shift
              trans_frames template box k frame Hk Hlow)
    as (Hx & Hy & Hw & Hlf & Hlx & Hly).
  set (r := driftcorr candidates score min_confidence shift trans_frames
              template box) in *.
  exists r.1.1, r.2, r.1.2.1, r.1.2.2. split; [|done].
  unfold correct_drift.
  rewrite (run_bind _ _ _ _ _ (run_getattr d _ _ Hon)), Htrue.
  rewrite (run_bind _ _ _ _ _ (run_getattr d _ _ Htemplate)).
  by rewrite (run_bind _ _ _ _ _ (run_getattr d _ _ Hbox)).
Qed.

End Segment.

Lemma correct_drift_fail_soft_witness :
  ∃ frames warnings xs ys,
    correct_drift Demo.candidates Demo.score Demo.min_confidence Demo.shift
      [Demo.img] Demo.position
    = (Returned (frames, warnings),
       <["drift_values" := PyDrift xs ys]> Demo.position)
    ∧ xs !! 0 = Some 0%Z ∧ ys !! 0 = Some 0%Z ∧ 0 ∈ warnings
    ∧ length frames = length [Demo.img]
    ∧ length xs = length [Demo.img] ∧ length ys = length [Demo.img].
Proof.
  apply (correct_drift_fail_soft Demo.candidates Demo.score
           Demo.min_confidence Demo.shift Demo.position [Demo.img]
           (PyBool true) (PyImage Demo.img) (PyBox Demo.nobox) 0 Demo.img).
  - vm_compute. reflexivity.
  - reflexivity.
  - vm_compute. reflexivity.
  - vm_compute. reflexivity.
  - reflexivity.
  - intros s _ Hlt. vm_compute in Hlt. discriminate Hlt.
Defined.

End DriftFacts.

(** ** Saving, clearing and loading a position *)

Module PositionFacts.
Import Py PyFacts Position DriftFacts.

Lemma lookup_fold_items (c : string → bool) (h : string * attr → attr)
    (kvs : list (string * attr)) (m0 : gmap string attr) (j : string) :
  NoDup kvs.*1 →
  foldl (λ m kv, if c kv.1 then m else <[kv.1 := h kv]> m) m0 kvs !! j
  = match (list_to_map kvs : gmap string attr) !! j with
    | Some v => if c j then m0 !! j else Some (h (j, v))
    | None => m0 !! j
    end.
Proof.
  revert m0. induction kvs as [|[k v] kvs IH]; intros m0 Hnd; [done|].
  rewrite fmap_cons in Hnd. apply NoDup_cons in Hnd as [Hk Hnd].
  cbn [foldl fst]. rewrite IH by done. rewrite list_to_map_cons.
  destruct (decide (j = k)) as [->|Hne].
  - rewrite (not_elem_of_list_to_map_1 kvs k Hk), lookup_insert_eq.
    destruct (c k); [done|]. apply lookup_insert_eq.
  - rewrite (lookup_insert_ne _ k j) by done.
    assert ((if c k then m0 else <[k:=h (k, v)]> m0) !! j = m0 !! j) as ->.
    { destruct (c k); [done|]. by apply lookup_insert_ne. }
    done.
Qed.

Lemma lookup_fold_map (c : string → bool) (h : string * attr → attr)
    (src m0 : gmap string attr) (j : string) :
  foldl (λ m kv, if c kv.1 then m else <[kv.1 := h kv]> m) m0
    (map_to_list src) !! j
  = match src !! j with
    | Some v => if c j then m0 !! j else Some (h (j, v))
    | None => m0 !! j
    end.
Proof.
  rewrite lookup_fold_items by apply NoDup_fst_map_to_list.
  by rewrite list_to_map_to_list.
Qed.

Section Skip.
Context (skip : list string).
Hypothesis Hskip : "_pickle_skip" ∈ skip.

(** The positions whose [_pickle_skip] is the tuple [skip]. *)
Local Abbreviation skips d := (d !! "_pickle_skip" = Some (PyStrs skip)).

Lemma run_getstate (d : gmap string attr) :
  skips d →
  getstate d
  = (Returned
       (foldl (λ m kv, <[kv.1 := if bool_decide (kv.1 ∈ skip)
                                 then PyNone else kv.2]> m)
          ∅ (map_to_list d)), d).
Proof using Type.
  intros Hd. unfold getstate. rewrite (run_bind get _ d d d) by done.
  apply (run_for_fold (λ s, skips s)); [|done].
  intros acc kv s _ Hs.
  by rewrite (run_bind _ _ _ _ _ (run_getattr s _ _ Hs)).
Qed.

Lemma run_store (src d : gmap string attr) (h : string * attr → attr) :
  skips d →
  for_each (λ kv : string * attr,
              skip ← getattr "_pickle_skip";
              b ← contains kv.1 skip;
              if (b : bool) then mret tt else setattr kv.1 (h kv))
    (map_to_list src) d
  = (Returned tt,
     foldl (λ m kv, if bool_decide (kv.1 ∈ skip) then m
                    else <[kv.1 := h kv]> m) d (map_to_list src)).
Proof using Hskip.
  intros Hd.
  destruct (run_for_each (λ s, skips s)
              (λ (kv : string * attr) m,
                 if bool_decide (kv.1 ∈ skip) then m else <[kv.1 := h kv]> m)
              (λ kv : string * attr,
                 skip ← getattr "_pickle_skip";
                 b ← contains kv.1 skip;
                 if (b : bool) then mret tt else setattr kv.1 (h kv))
              (map_to_list src)) with (s := d) as [Hrun _]; [|done|done].
  intros kv s _ Hs.
  rewrite (run_bind _ _ _ _ _ (run_getattr s _ _ Hs)).
  erewrite run_bind by reflexivity.
  case_bool_decide as Hkv; [done|]. split; [done|].
  rewrite lookup_insert_ne; [done|]. intros Heq. apply Hkv. by rewrite Heq.
Qed.

Lemma run_load (p d : gmap string attr) :
  skips d →
  load p d
  = (Returned tt,
     foldl (λ m kv, if bool_decide (kv.1 ∈ skip) then m
                    else <[kv.1 := kv.2]> m) d (map_to_list p)).
Proof using Hskip. intros Hd. by apply (run_store p d snd). Qed.

Lemma run_clear (d : gmap string attr) :
  skips d →
  clear d
  = (Returned tt,
     foldl (λ m kv, if bool_decide (kv.1 ∈ skip) then m
                    else <[kv.1 := PyNone]> m) d (map_to_list d)).
Proof using Hskip.
  intros Hd. unfold clear. rewrite (run_bind get _ d d d) by done.
  rewrite <-(run_store d d (λ _, PyNone)) by done.
  by rewrite for_each_fmap.
Qed.

Lemma lookup_cleared (d : gmap string attr) (k : string) :
  foldl (λ m kv, if bool_decide (kv.1 ∈ skip) then m
                 else <[kv.1 := PyNone]> m) d (map_to_list d) !! k
  = (λ v, if bool_decide (k ∈ skip) then v else PyNone) <$> d !! k.
Proof using Type.
  etrans;
    [exact (lookup_fold_map (λ k, bool_decide (k ∈ skip)) (λ _, PyNone) d d k)|].
  destruct (d !! k) as [v|] eqn:Hk; simpl; [|done].
  by destruct (bool_decide (k ∈ skip)).
Qed.

Lemma lookup_saved (d : gmap string attr) (k : string) :
  foldl (λ (m : gmap string attr) kv,
           <[kv.1 := if bool_decide (kv.1 ∈ skip) then PyNone else kv.2]> m)
    ∅ (map_to_list d) !! k
  = (λ v, if bool_decide (k ∈ skip) then PyNone else v) <$> d !! k.
Proof using Type.
  etrans;
    [exact (lookup_fold_map (λ _, false)
              (λ kv, if bool_decide (kv.1 ∈ skip) then PyNone else kv.2)
              d ∅ k)|].
  by destruct (d !! k) as [v|] eqn:Hk.
Qed.

(** C9, as amended.  [clear] returns and sets every attribute of the
    position to [None] except those named in [_pickle_skip] (the reader,
    the models and [_pickle_skip] itself), which it leaves alone: the
    regions go as a whole, with their image and mask history and with their
    lineage graphs and label maps, so that nothing of them stays in memory.
    The state that [save] pickles holds every attribute but the skipped
    ones, and [load] of that state after [clear] gives back the position as
    it was before [clear], attribute for attribute. *)
Theorem clear_then_load (d : gmap string attr) :
  d !! "_pickle_skip" = Some (PyStrs skip) →
  ∃ saved cleared,
    getstate d = (Returned saved, d)
    ∧ clear d = (Returned tt, cleared)
    ∧ (∀ k, cleared !! k
            = (λ v, if bool_decide (k ∈ skip) then v else PyNone) <$> d !! k)
    ∧ (∀ k, saved !! k
            = (λ v, if bool_decide (k ∈ skip) then PyNone else v) <$> d !! k)
    ∧ ("rois" ∉ skip → is_Some (d !! "rois") →
       durable_state cleared = None ∧ bulk_state cleared = None)
    ∧ load saved cleared = (Returned tt, d).
Proof using Hskip.
  intros Hd. eexists _, _.
  split; [by apply run_getstate|]. split; [by apply run_clear|].
  split; [apply lookup_cleared|]. split; [apply lookup_saved|]. split.
  - intros Hrois [v Hv]. unfold durable_state, bulk_state.
    by rewrite lookup_cleared, Hv, bool_decide_false.
  - rewrite run_load.
    2:{ by rewrite lookup_cleared, Hd, bool_decide_true. }
    f_equal. apply map_eq. intros k.
    etrans;
      [exact (lookup_fold_map (λ k, bool_decide (k ∈ skip)) snd _ _ k)|].
    rewrite lookup_saved, lookup_cleared.
    destruct (d !! k) as [v|]; simpl; [|done].
    by destruct (bool_decide (k ∈ skip)).
Qed.

End Skip.

Lemma clear_then_load_witness :
  let skip := ["reader"; "models"; "_pickle_skip"] in
  ∃ saved cleared,
    getstate Demo.position = (Returned saved, Demo.position)
    ∧ clear Demo.position = (Returned tt, cleared)
    ∧ (∀ k, cleared !! k
            = (λ v, if bool_decide (k ∈ skip) then v else PyNone)
                <$> Demo.position !! k)
    ∧ (∀ k, saved !! k
            = (λ v, if bool_decide (k ∈ skip) then PyNone else v)
                <$> Demo.position !! k)
    ∧ ("rois" ∉ skip → is_Some (Demo.position !! "rois") →
       durable_state cleared = None ∧ bulk_state cleared = None)
    ∧ load saved cleared = (Returned tt, Demo.position).
Proof.
  apply (clear_then_load ["reader"; "models"; "_pickle_skip"]).
  - repeat constructor.
  - vm_compute. reflexivity.
Defined.

(** C9, counterexample.  After [clear], the lineage graphs and label maps
    of the regions are no longer in memory: [rois] is [None], as every
    attribute that is not skipped; more than the bulk arrays is dropped. *)
Lemma clear_drops_durable_state :
  durable_state Demo.position
  = Some [(ROI.lineage Demo.roi, ROI.label_stack Demo.roi)]
  ∧ durable_state (clear Demo.position).2 = None
  ∧ ¬ clear_keeps_durable_state Demo.position.
Proof.
  assert (durable_state (clear Demo.position).2 = None) as Hnone.
  { rewrite (run_clear ["reader"; "models"; "_pickle_skip"]);
      [|repeat constructor|by vm_compute].
    unfold durable_state. cbn [snd]. rewrite lookup_cleared. by vm_compute. }
  split; [by vm_compute|]. split; [done|].
  unfold clear_keeps_durable_state. rewrite Hnone. by vm_compute.
Qed.

End PositionFacts.

(** ** More on the region methods *)

Module ROIMore.
Import Py PyFacts Arrays Windows Tracking ROI ROIFacts Features.

Lemma set_lineage_id (roi : ROI.t) : set_lineage (lineage roi) roi = roi.
Proof. by destruct roi. Qed.

Lemma run_collect_pure {S X Y : Type} (f : X → M S Y) (g : X → Y)
    (xs : list X) (s : S) :
  (∀ x, x ∈ xs → f x s = (Returned (g x), s)) →
  collect f xs s = (Returned (g <$> xs), s).
Proof.
  induction xs as [|x xs IH]; intros Hf; [done|].
  cbn [collect]. rewrite (run_bind _ _ _ _ _ (Hf x ltac:(left))).
  rewrite (run_bind _ _ _ _ _ (IH (λ y Hy, Hf y ltac:(by right)))).
  done.
Qed.

Section Methods.
Context {X : Type} (utils : ROI.utilities X).

(** X1.  A mask stored for a frame that the sequence already reaches
    replaces the entry of that frame only: the sequence keeps its length
    and every other entry. *)
Theorem process_segmentation_outputs_in_place (roi : ROI.t) (y : list Img)
    (f : nat) windows (i0 y1 : Img) :
  img_stack roi !! 0 = Some i0 → stitch_outputs y windows = Some y1 →
  f < length (seg_stack roi) →
  let mask := opencv_areafilt utils
                (crop (binarize y1) (0, (shape i0).1) (0, (shape i0).2)) in
  ∃ seg',
    process_segmentation_outputs utils y (Some f) windows roi
    = (Returned tt, set_seg_stack seg' roi)
    ∧ length seg' = length (seg_stack roi)
    ∧ seg' !! f = Some (Some mask)
    ∧ (∀ i, i ≠ f → seg' !! i = seg_stack roi !! i).
Proof.
  intros Hi0 Hy1 Hf mask. eexists.
  split; [by apply process_segmentation_outputs_run|].
  unfold store_mask. rewrite bool_decide_false by lia.
  split; [apply length_insert|]. split.
  - by apply list_lookup_insert_eq.
  - intros i Hi. by apply list_lookup_insert_ne.
Qed.



(** X4.  A frame without cells on the path of "no previous cells": with no
    pole found in the mask of the frame, [get_tracking_inputs] returns
    [(None, None)] and the region, lineage included, is exactly as before;
    the lineage does not get the frame. *)
Theorem get_tracking_inputs_no_cell (roi : ROI.t) (f : nat) (mask : Mask) :
  seg_stack roi !! f = Some (Some mask) →
  no_previous_cells (Lineage.cellnumbers (lineage roi)) f = true →
  getpoles utils mask None (scaling roi) = [] →
  get_tracking_inputs utils (Some f) roi = (Returned (None, None), roi).
Proof.
  intros Hmask Hprev Hpoles. unfold get_tracking_inputs.
  rewrite (run_bind get _ roi roi roi) by done. cbn [default from_option id].
  rewrite bool_decide_false by (apply lookup_lt_Some in Hmask; lia).
  rewrite Hprev, (run_bind _ _ _ _ _ (run_array _ _ _ roi Hmask)), Hpoles.
  cbn [length seq for_each].
  assert (on_lineage (mret tt) roi = (Returned tt, roi)) as Hrun.
  { unfold on_lineage. erewrite run_zoom by reflexivity.
    by rewrite set_lineage_id. }
  by rewrite (run_bind _ _ _ _ _ Hrun).
Qed.


Lemma lineage_only_ret {T : Type} (v : T) : lineage_only (mret v).
Proof. intros roi. symmetry. apply set_lineage_id. Qed.

Lemma lineage_only_raise {T : Type} (e : exn) : lineage_only (@raise _ T e).
Proof. intros roi. symmetry. apply set_lineage_id. Qed.

Lemma lineage_only_index {T : Type} (l : list T) (i : nat) :
  lineage_only (index l i).
Proof.
  unfold index. destruct (l !! i);
    [apply lineage_only_ret|apply lineage_only_raise].
Qed.

Lemma lineage_only_bind {T U : Type} (m : M ROI.t T) (k : T → M ROI.t U) :
  lineage_only m → (∀ v, lineage_only (k v)) → lineage_only (m ≫= k).
Proof.
  intros Hm Hk roi. unfold mbind, bind. specialize (Hm roi).
  destruct (m roi) as [[v|e] roi1]; [|done]. simpl in Hm.
  rewrite (Hk v roi1). by rewrite Hm at 2.
Qed.

Lemma lineage_only_array {T : Type} (l : list (option T)) (i : nat) :
  lineage_only (array l i).
Proof.
  apply lineage_only_bind; [apply lineage_only_index|].
  intros [v|]; [apply lineage_only_ret|apply lineage_only_raise].
Qed.

Lemma lineage_only_collect {Y Z : Type} (f : Y → M ROI.t Z) (xs : list Y) :
  (∀ x, lineage_only (f x)) → lineage_only (collect f xs).
Proof.
  intros Hf. induction xs as [|x xs IH]; [apply lineage_only_ret|].
  apply lineage_only_bind; [done|]. intros y.
  apply lineage_only_bind; [done|]. intros ys. apply lineage_only_ret.
Qed.

Lemma lineage_only_on_lineage {T : Type} (m : M Lineage.t T) :
  lineage_only (on_lineage m).
Proof.
  intros roi. unfold on_lineage, zoom. by destruct (m (lineage roi)).
Qed.

Lemma lineage_only_get_tracking_inputs (frame : option nat) :
  lineage_only (get_tracking_inputs utils frame).
Proof.
  intros roi0. unfold get_tracking_inputs.
  rewrite (run_bind get _ roi0 roi0 roi0) by done.
  set (f := default _ frame). case_bool_decide.
  { apply lineage_only_raise. }
  destruct (no_previous_cells _ _).
  - apply lineage_only_bind; [apply lineage_only_array|]. intros mask.
    apply lineage_only_bind; [apply lineage_only_on_lineage|].
    intros _. apply lineage_only_ret.
  - apply lineage_only_bind; [apply lineage_only_array|]. intros mask.
    apply lineage_only_bind; [|intros; apply lineage_only_ret].
    apply lineage_only_collect. intros cell.
    apply lineage_only_bind; [apply lineage_only_index|]. intros curr.
    apply lineage_only_bind; [apply lineage_only_index|]. intros prev.
    apply lineage_only_bind; [apply lineage_only_array|]. intros seg.
    apply lineage_only_ret.
Qed.

Lemma lineage_only_process_tracking_outputs (y : list Img)
    (frame : option nat) (boxes : option (list (Box * Box))) :
  lineage_only (process_tracking_outputs utils y frame boxes).
Proof.
  intros roi0. unfold process_tracking_outputs.
  rewrite (run_bind get _ roi0 roi0 roi0) by done.
  apply lineage_only_bind; [apply lineage_only_array|]. intros mask.
  destruct (getTrackingScores _ _ _ _); apply lineage_only_on_lineage.
Qed.

(** X6.  The two tracking methods of a region change nothing but its
    lineage, whether they return or raise: the images, the masks, the label
    maps, the box and the flags of the region are as before. *)
Theorem tracking_methods_leave_stacks (roi : ROI.t) (y : list Img)
    (frame : option nat) (boxes : option (list (Box * Box))) :
  let roi1 := (get_tracking_inputs utils frame roi).2 in
  let roi2 := (process_tracking_outputs utils y frame boxes roi).2 in
  (img_stack roi1 = img_stack roi ∧ seg_stack roi1 = seg_stack roi
   ∧ label_stack roi1 = label_stack roi
   ∧ roi1 = set_lineage (lineage roi1) roi)
  ∧ (img_stack roi2 = img_stack roi ∧ seg_stack roi2 = seg_stack roi
     ∧ label_stack roi2 = label_stack roi
     ∧ roi2 = set_lineage (lineage roi2) roi).
Proof.
  cbv zeta. split.
  - pose proof (lineage_only_get_tracking_inputs frame roi) as H.
    by rewrite H.
  - pose proof (lineage_only_process_tracking_outputs y frame boxes roi) as H.
    by rewrite H.
Qed.

End Methods.

Lemma process_segmentation_outputs_in_place_witness :
  let mask := opencv_areafilt Demo.utils
                (crop (binarize Demo.img)
                   (0, (shape Demo.img).1) (0, (shape Demo.img).2)) in
  ∃ seg',
    process_segmentation_outputs Demo.utils [Demo.img] (Some 0) None Demo.roi
    = (Returned tt, set_seg_stack seg' Demo.roi)
    ∧ length seg' = length (seg_stack Demo.roi)
    ∧ seg' !! 0 = Some (Some mask)
    ∧ (∀ i, i ≠ 0 → seg' !! i = seg_stack Demo.roi !! i).
Proof.
  apply (process_segmentation_outputs_in_place Demo.utils Demo.roi
           [Demo.img] 0 None Demo.img Demo.img).
  - reflexivity.
  - reflexivity.
  - simpl. lia.
Defined.



Lemma get_tracking_inputs_no_cell_witness :
  get_tracking_inputs Fixtures.utils (Some 0) Demo.roi
  = (Returned (None, None), Demo.roi).
Proof.
  apply (get_tracking_inputs_no_cell Fixtures.utils Demo.roi 0 Demo.mask0).
  - reflexivity.
  - reflexivity.
  - reflexivity.
Defined.


End ROIMore.

(** ** Label maps and edge marks *)

Module LabelFacts.
Import Py PyFacts Arrays ROI Features.

Section Labels.
Context (utils : Features.utilities).

Lemma compile_labels_hit (roi : ROI.t) (f : nat) (labels : Labels) :
  label_stack roi !! f = Some (Some labels) →
  compile_labels utils (Some f) roi = (Returned labels, roi).
Proof.
  intros Hf. unfold compile_labels.
  rewrite (run_bind get _ roi roi roi) by done. cbn [default from_option id].
  rewrite bool_decide_false by (apply lookup_lt_Some in Hf; lia).
  rewrite (run_bind (mret tt) _ roi roi tt) by done.
  rewrite (run_bind get _ roi roi roi) by done.
  by rewrite (run_bind _ _ _ _ _ (run_index _ _ _ roi Hf)).
Qed.

Lemma compile_labels_stored (roi roi1 : ROI.t) (f : nat) (labels : Labels) :
  compile_labels utils (Some f) roi = (Returned labels, roi1) →
  label_stack roi1 !! f = Some (Some labels).
Proof.
  unfold compile_labels.
  rewrite (run_bind get _ roi roi roi) by done. cbn [default from_option id].
  set (roi0 := if bool_decide (length (label_stack roi) ≤ f)
               then set_label_stack
                      (label_stack roi
                       ++ replicate (f + 1 - length (label_stack roi)) None)
                      roi
               else roi).
  assert (f < length (label_stack roi0)) as Hlen.
  { unfold roi0. case_bool_decide; [|lia].
    cbn [label_stack set_label_stack].
    rewrite length_app, length_replicate. lia. }
  erewrite (run_bind _ _ roi roi0 tt) by (unfold roi0; by case_bool_decide).
  rewrite (run_bind get _ roi0 roi0 roi0) by done.
  destruct (lookup_lt_is_Some_2 _ _ Hlen) as [cached Hcached].
  rewrite (run_bind _ _ _ _ _ (run_index _ _ _ roi0 Hcached)).
  destruct cached as [lab|].
  { by intros [= <- <-]. }
  unfold array, index, minus, mbind, bind, mret, ret, raise, modify.
  repeat case_match; intros ?; simplify_eq;
    cbn [label_stack set_label_stack]; by apply list_lookup_insert_eq.
Qed.

(** X7.  Once the label map of a frame was compiled, it is never compiled
    again: whatever lineage and masks the region gets afterwards, a later
    request for the frame returns the stored label map and changes
    nothing. *)
Theorem compile_labels_once (roi roi1 : ROI.t) (f : nat) (labels : Labels) :
  compile_labels utils (Some f) roi = (Returned labels, roi1) →
  ∀ (l' : Lineage.t) (seg' : list (option Mask)),
    let roi2 := set_lineage l' (set_seg_stack seg' roi1) in
    compile_labels utils (Some f) roi2 = (Returned labels, roi2).
Proof.
  intros Hrun l' seg' roi2. apply compile_labels_hit.
  by apply compile_labels_stored in Hrun.
Qed.

(** X8.  A request for the label map of a frame that neither the label maps
    nor the masks reach raises [IndexError], and still leaves its mark: the
    label maps have been extended with [None] up to the frame. *)
Theorem compile_labels_without_mask (roi : ROI.t) (f : nat) :
  length (label_stack roi) ≤ f → length (seg_stack roi) ≤ f →
  compile_labels utils (Some f) roi
  = (Raised IndexError,
     set_label_stack
       (label_stack roi ++ replicate (f + 1 - length (label_stack roi)) None)
       roi).
Proof.
  intros Hlab Hseg. unfold compile_labels.
  rewrite (run_bind get _ roi roi roi) by done. cbn [default from_option id].
  rewrite bool_decide_true by done.
  set (roi0 := set_label_stack _ roi).
  rewrite (run_bind (modify _) _ roi roi0 tt) by done.
  rewrite (run_bind get _ roi0 roi0 roi0) by done.
  assert (label_stack roi0 !! f = Some None) as Hnone.
  { unfold roi0. cbn [label_stack set_label_stack].
    rewrite lookup_app_r by done. apply lookup_replicate_2. lia. }
  rewrite (run_bind _ _ _ _ _ (run_index _ _ _ roi0 Hnone)).
  apply run_bind_raised. unfold array. apply run_bind_raised.
  unfold index. cbn [seg_stack set_label_stack roi0].
  by rewrite lookup_ge_None_2.
Qed.

End Labels.

Lemma compile_labels_once_witness :
  let roi1 := (compile_labels Fixtures.label_utils (Some 1) Fixtures.tracked).2 in
  let roi2 := set_lineage Lineage.empty (set_seg_stack [] roi1) in
  compile_labels Fixtures.label_utils (Some 1) roi2
  = (Returned Demo.mask1, roi2).
Proof.
  apply (compile_labels_once Fixtures.label_utils Fixtures.tracked
           (compile_labels Fixtures.label_utils (Some 1) Fixtures.tracked).2 1
           Demo.mask1).
  vm_compute. reflexivity.
Defined.

Lemma compile_labels_without_mask_witness :
  compile_labels Fixtures.label_utils (Some 3) Demo.roi
  = (Raised IndexError,
     set_label_stack
       (label_stack Demo.roi
        ++ replicate (3 + 1 - length (label_stack Demo.roi)) None) Demo.roi).
Proof.
  apply (compile_labels_without_mask Fixtures.label_utils Demo.roi 3).
  - simpl. lia.
  - simpl. lia.
Defined.

(** X9.  The edge mark of a cell is empty exactly when no point of its
    contour lies on the first or the last row or column of the label map. *)
Theorem edge_str_empty (cnt : list (Z * Z)) (shape : nat * nat) :
  edge_str cnt shape = ""
  ↔ Forall (λ p, p.1 ≠ 0%Z ∧ p.1 ≠ (Z.of_nat shape.2 - 1)%Z
                 ∧ p.2 ≠ 0%Z ∧ p.2 ≠ (Z.of_nat shape.1 - 1)%Z) cnt.
Proof.
  unfold edge_str. rewrite Forall_forall. split.
  - intros Hempty p Hp.
    repeat case_bool_decide; try discriminate Hempty.
    repeat split; intros Heq;
      match goal with
      | H : ¬ Exists _ cnt |- _ =>
          apply H, Exists_exists; exists p; by split
      end.
  - intros Hcnt.
    rewrite !bool_decide_false; [done|..];
      intros (p & Hp & Heq)%Exists_exists; apply Hcnt in Hp; tauto.
Qed.

Example edge_str_corner : edge_str [(0, 3); (1, 4)]%Z (5, 7) = "-x+y".
Proof. vm_compute. reflexivity. Qed.

End LabelFacts.

(** ** More on saving, clearing and loading *)

Module PositionMore.
Import Py PyFacts Position DriftFacts PositionFacts.

Section Skip.
Context (skip : list string).
Hypothesis Hskip : "_pickle_skip" ∈ skip.

(** X10.  Clearing a cleared position changes nothing: [clear] returns
    again and leaves every attribute as the first [clear] left it. *)
Theorem clear_twice (d : gmap string attr) :
  d !! "_pickle_skip" = Some (PyStrs skip) →
  ∃ cleared,
    clear d = (Returned tt, cleared) ∧ clear cleared = (Returned tt, cleared).
Proof using Hskip.
  intros Hd. eexists. split; [by apply (run_clear skip)|].
  rewrite (run_clear skip); [|done|].
  2:{ by rewrite lookup_cleared, Hd, bool_decide_true. }
  f_equal. apply map_eq. intros k. rewrite !lookup_cleared.
  destruct (d !! k) as [v|]; simpl; [|done].
  by destruct (bool_decide (k ∈ skip)).
Qed.

(** X11.  [load] keeps the attributes named in [_pickle_skip] as the
    position has them (its reader and models, not the [None] of the
    pickle), takes every other attribute of the pickled position, and
    keeps the attributes that the pickled position lacks. *)
Theorem load_lookup (p d : gmap string attr) :
  d !! "_pickle_skip" = Some (PyStrs skip) →
  ∃ d',
    load p d = (Returned tt, d')
    ∧ ∀ k, d' !! k
           = if bool_decide (k ∈ skip) then d !! k
             else match p !! k with Some v => Some v | None => d !! k end.
Proof using Hskip.
  intros Hd. eexists. split; [by apply (run_load skip)|]. intros k.
  etrans;
    [exact (lookup_fold_map (λ k, bool_decide (k ∈ skip)) snd p d k)|].
  destruct (p !! k) as [v|]; [done|]. by destruct (bool_decide (k ∈ skip)).
Qed.

(** X12.  The pickled state holds [None] for [_pickle_skip]: a position that
    has that state for its attributes can neither be pickled nor cleared,
    [__getstate__] and [clear] raise [TypeError] on it and change nothing. *)
Theorem pickled_state_unusable (d : gmap string attr) :
  d !! "_pickle_skip" = Some (PyStrs skip) →
  ∃ saved,
    getstate d = (Returned saved, d)
    ∧ saved !! "_pickle_skip" = Some PyNone
    ∧ getstate saved = (Raised TypeError, saved)
    ∧ clear saved = (Raised TypeError, saved).
Proof using Hskip.
  intros Hd. eexists. split; [by apply (run_getstate skip)|].
  set (saved := foldl _ ∅ (map_to_list d)).
  assert (saved !! "_pickle_skip" = Some PyNone) as Hnone.
  { unfold saved. by rewrite lookup_saved, Hd, bool_decide_true. }
  split; [done|].
  destruct (map_to_list saved) as [|kv kvs] eqn:Hlist.
  { apply map_to_list_empty_iff in Hlist. by rewrite Hlist in Hnone. }
  split.
  - unfold getstate. rewrite (run_bind get _ saved saved saved) by done.
    rewrite Hlist. cbn [for_fold]. apply run_bind_raised.
    by rewrite (run_bind _ _ _ _ _ (run_getattr saved _ _ Hnone)).
  - unfold clear. rewrite (run_bind get _ saved saved saved) by done.
    rewrite Hlist, fmap_cons. cbn [for_each]. apply run_bind_raised.
    by rewrite (run_bind _ _ _ _ _ (run_getattr saved _ _ Hnone)).
Qed.

End Skip.

Section Segment.
Context (candidates : attr → attr → ROI.Img → list (Z * Z))
  (score : attr → ROI.Img → Z * Z → Q)
  (min_confidence : Q)
  (shift : ROI.Img → Z * Z → ROI.Img).

(** X13.  With drift correction off, or [None] as [clear] leaves it, the
    drift stage of [segment] hands the frames back as they are, warns about
    none, reads neither template nor box and records nothing. *)
Theorem correct_drift_off (d : gmap string attr)
    (trans_frames : list ROI.Img) (on : attr) :
  d !! "drift_correction" = Some on → truthy on = false →
  correct_drift candidates score min_confidence shift trans_frames d
  = (Returned (trans_frames, []), d).
Proof.
  intros Hon Hfalse. unfold correct_drift.
  by rewrite (run_bind _ _ _ _ _ (run_getattr d _ _ Hon)), Hfalse.
Qed.

(** X14.  With drift correction on and no drift template yet (the position
    was not preprocessed), the drift stage of [segment] raises
    [AttributeError] and changes nothing. *)
Theorem correct_drift_without_template (d : gmap string attr)
    (trans_frames : list ROI.Img) (on : attr) :
  d !! "drift_correction" = Some on → truthy on = true →
  d !! "drifttemplate" = None →
  correct_drift candidates score min_confidence shift trans_frames d
  = (Raised AttributeError, d).
Proof.
  intros Hon Htrue Htemplate. unfold correct_drift.
  rewrite (run_bind _ _ _ _ _ (run_getattr d _ _ Hon)), Htrue.
  apply run_bind_raised. unfold getattr.
  rewrite (run_bind get _ d d d) by done. by rewrite Htemplate.
Qed.

End Segment.

Lemma clear_twice_witness :
  ∃ cleared,
    clear Demo.position = (Returned tt, cleared)
    ∧ clear cleared = (Returned tt, cleared).
Proof.
  apply (clear_twice ["reader"; "models"; "_pickle_skip"]).
  - repeat constructor.
  - vm_compute. reflexivity.
Defined.

Lemma load_lookup_witness :
  let skip := ["reader"; "models"; "_pickle_skip"] in
  ∃ d',
    load Demo.position (init 1 false false) = (Returned tt, d')
    ∧ ∀ k, d' !! k
           = if bool_decide (k ∈ skip) then init 1 false false !! k
             else match Demo.position !! k with
                  | Some v => Some v
                  | None => init 1 false false !! k
                  end.
Proof.
  apply (load_lookup ["reader"; "models"; "_pickle_skip"]).
  - repeat constructor.
  - vm_compute. reflexivity.
Defined.

Lemma pickled_state_unusable_witness :
  ∃ saved,
    getstate Demo.position = (Returned saved, Demo.position)
    ∧ saved !! "_pickle_skip" = Some PyNone
    ∧ getstate saved = (Raised TypeError, saved)
    ∧ clear saved = (Raised TypeError, saved).
Proof.
  apply (pickled_state_unusable ["reader"; "models"; "_pickle_skip"]).
  - repeat constructor.
  - vm_compute. reflexivity.
Defined.

Lemma correct_drift_off_witness :
  correct_drift Demo.candidates Demo.score Demo.min_confidence Demo.shift
    [Demo.img] (clear Demo.position).2
  = (Returned ([Demo.img], []), (clear Demo.position).2).
Proof.
  apply (correct_drift_off Demo.candidates Demo.score Demo.min_confidence
           Demo.shift (clear Demo.position).2 [Demo.img] PyNone).
  - vm_compute. reflexivity.
  - reflexivity.
Defined.

Lemma correct_drift_without_template_witness :
  correct_drift Demo.candidates Demo.score Demo.min_confidence Demo.shift
    [Demo.img] (init 0 true false)
  = (Raised AttributeError, init 0 true false).
Proof.
  apply (correct_drift_without_template Demo.candidates Demo.score
           Demo.min_confidence Demo.shift (init 0 true false) [Demo.img]
           (PyBool true)).
  - vm_compute. reflexivity.
  - reflexivity.
  - vm_compute. reflexivity.
Defined.

End PositionMore.

(** ** Batches *)

Module BatchFacts.
Import Py PyFacts Arrays ROI ROIFacts Orchestration.

Lemma same_bind {S T U : Type} (m m' : M S T) (k : T → M S U) (s s' : S) :
  m s = m' s' → (m ≫= k) s = (m' ≫= k) s'.
Proof. intros Hm. unfold mbind, bind. by rewrite Hm. Qed.

Lemma run_for_fold_cons {S X B : Type} (body : B → X → M S B) (acc acc' : B)
    (x : X) (xs : list X) (s s' : S) :
  body acc x s = (Returned acc', s') →
  for_fold body acc (x :: xs) s = for_fold body acc' xs s'.
Proof. intros Hx. cbn [for_fold]. by rewrite (run_bind _ _ _ _ _ Hx). Qed.

Lemma run_for_fold_cons_raised {S X B : Type} (body : B → X → M S B)
    (acc : B) (x : X) (xs : list X) (s s' : S) (e : exn) :
  body acc x s = (Raised e, s') →
  for_fold body acc (x :: xs) s = (Raised e, s').
Proof. intros Hx. cbn [for_fold]. by apply run_bind_raised. Qed.

Lemma run_on_item {S T : Type} (i : nat) (m : M S T) (l : list S) (s s' : S)
    (r : outcome T) :
  l !! i = Some s → m s = (r, s') → on_item i m l = (r, <[i := s']> l).
Proof. intros Hi Hm. unfold on_item. by rewrite Hi, Hm. Qed.

Lemma slice_middle {Y : Type} (pre out rest : list Y) :
  slice (length pre) (length pre + length out) (pre ++ out ++ rest) = out.
Proof.
  unfold slice. rewrite drop_app_length.
  replace (length pre + length out - length pre) with (length out) by lia.
  apply take_app_length.
Qed.

Section Dispatch.
Context {S Y B : Type} (method : list Y → option nat → B → M S unit).

Lemma run_dispatch_from (refs : list (nat * nat * nat * B))
    (ys : list (list Y)) (y pre rest : list Y) (l : list S) :
  Forall2 (λ ref out, ref.1.1.2 = length out) refs ys →
  y = pre ++ concat ys ++ rest →
  (for_fold
     (λ i ref,
        on_item ref.1.1.1
          (method (slice i (i + ref.1.1.2) y) (Some ref.1.2) ref.2);;
        mret (i + ref.1.1.2))
     (length pre) refs;;
   mret tt) l
  = for_each (λ ro, on_item ro.1.1.1.1 (method ro.2 (Some ro.1.1.2) ro.1.2))
      (zip refs ys) l.
Proof.
  intros Hlen. revert pre l.
  induction Hlen as [|ref out refs ys Hn _ IH]; intros pre l Hy;
    [reflexivity|].
  assert (slice (length pre) (length pre + ref.1.1.2) y = out) as Hout.
  { rewrite Hy, Hn. cbn [concat]. rewrite <-app_assoc. apply slice_middle. }
  cbn [zip zip_with for_each fst snd].
  destruct (on_item ref.1.1.1 (method out (Some ref.1.2) ref.2) l)
    as [[[]|e] l1] eqn:Hm.
  - rewrite (run_bind _ _ _ _ _ Hm).
    specialize (IH (pre ++ out) l1).
    rewrite length_app, <-Hn in IH. rewrite <-IH.
    2:{ rewrite Hy. cbn [concat]. by rewrite <-!app_assoc. }
    apply same_bind, run_for_fold_cons.
    rewrite Hout. by rewrite (run_bind _ _ _ _ _ Hm).
  - rewrite (run_bind_raised _ _ _ _ _ Hm).
    apply run_bind_raised, run_for_fold_cons_raised.
    rewrite Hout. by rewrite (run_bind_raised _ _ _ _ _ Hm).
Qed.

(** X15.  When the outputs [y] are the concatenation of one batch per
    reference, each of the length the reference records, the dispatch loop
    hands every region exactly its batch, with the frame and the windows or
    boxes of its reference, in the order of the references; it stops at the
    first method that raises. *)
Theorem dispatch_aligned (refs : list (nat * nat * nat * B))
    (ys : list (list Y)) (l : list S) :
  Forall2 (λ ref out, ref.1.1.2 = length out) refs ys →
  dispatch method (concat ys) refs l
  = for_each (λ ro, on_item ro.1.1.1.1 (method ro.2 (Some ro.1.1.2) ro.1.2))
      (zip refs ys) l.
Proof.
  intros Hlen. unfold dispatch.
  apply (run_dispatch_from refs ys (concat ys) [] [] l Hlen).
  by rewrite app_nil_r.
Qed.

End Dispatch.

Lemma dispatch_aligned_witness :
  dispatch (process_segmentation_outputs Demo.utils)
    (concat [[Demo.img]; [Demo.img; Demo.img]])
    [(0, 1, 0, None); (1, 2, 0, None)] [Demo.roi; Fixtures.tracked]
  = for_each
      (λ ro, on_item ro.1.1.1.1
               (process_segmentation_outputs Demo.utils ro.2 (Some ro.1.1.2)
                  ro.1.2))
      (zip [(0, 1, 0, None); (1, 2, 0, None)]
         [[Demo.img]; [Demo.img; Demo.img]])
      [Demo.roi; Fixtures.tracked].
Proof.
  apply (dispatch_aligned (process_segmentation_outputs Demo.utils)
           [(0, 1, 0, None); (1, 2, 0, None)]
           [[Demo.img]; [Demo.img; Demo.img]] [Demo.roi; Fixtures.tracked]).
  repeat constructor.
Defined.

(** *** [Pipeline.preprocess] *)

Lemma for_each_returned {S X : Type} (body : X → M S unit) (xs : list X)
    (s s' : S) (x : X) :
  for_each body xs s = (Returned tt, s') → x ∈ xs →
  ∃ s1 s2, body x s1 = (Returned tt, s2).
Proof.
  revert s. induction xs as [|x0 xs IH]; intros s Hrun Hx.
  { by apply elem_of_nil in Hx. }
  cbn [for_each] in Hrun. unfold mbind, bind in Hrun.
  destruct (body x0 s) as [[[]|e] s1] eqn:Hx0; [|done].
  apply elem_of_cons in Hx as [->|Hx]; [eauto|]. by eapply IH.
Qed.

(** X18.  [Pipeline.preprocess] with a list of positions and no reference
    images builds one [None] per listed position and indexes that list with
    the position numbers: when a listed position number is not below the
    length of the list, the call never returns normally; when it is the
    first of the list, [IndexError] is raised before any position is
    preprocessed. *)
Theorem pipeline_preprocess_positions {P Ref : Type}
    (preprocess : option Ref → M P unit) (npos : nat) (ps : list nat)
    (l : list P) (p : nat) :
  p ∈ ps → length ps ≤ p →
  (pipeline_preprocess preprocess npos (Some ps) None l).1 ≠ Returned tt
  ∧ (head ps = Some p →
     pipeline_preprocess preprocess npos (Some ps) None l
     = (Raised IndexError, l)).
Proof.
  intros Hp Hlen. unfold pipeline_preprocess. cbn [default from_option id].
  set (body := λ p : nat, _).
  assert (∀ l1, ∃ l2, body p l1 = (Raised IndexError, l2) ∧ l2 = l1) as Hbody.
  { intros l1. exists l1. split; [|done]. unfold body.
    rewrite (run_bind get _ l1 l1 l1) by done.
    destruct (l1 !! p) as [pos|] eqn:Hpos.
    2:{ apply run_bind_raised. unfold index. by rewrite Hpos. }
    rewrite (run_bind _ _ _ _ _ (run_index _ _ _ l1 Hpos)).
    apply run_bind_raised. unfold index.
    by rewrite (lookup_ge_None_2 (replicate (length ps) None) p)
      by (rewrite length_replicate; lia). }
  split.
  - intros Hret. destruct (for_each body ps l) as [r l'] eqn:Hrun.
    simpl in Hret. subst r.
    destruct (for_each_returned body ps l l' p Hrun Hp) as (l1 & l2 & Hl1).
    destruct (Hbody l1) as (l3 & Hl3 & _). congruence.
  - intros Hhead. destruct ps as [|p0 ps']; [done|].
    injection Hhead as ->. cbn [for_each]. apply run_bind_raised.
    by destruct (Hbody l) as (l2 & -> & ->).
Qed.

Lemma pipeline_preprocess_positions_witness :
  (pipeline_preprocess (λ _ : option ROI.Img, mret tt) 4 (Some [3]) None
     [Demo.position; Demo.position; Demo.position; Demo.position]).1
  ≠ Returned tt
  ∧ (head [3] = Some 3 →
     pipeline_preprocess (λ _ : option ROI.Img, mret tt) 4 (Some [3]) None
       [Demo.position; Demo.position; Demo.position; Demo.position]
     = (Raised IndexError,
        [Demo.position; Demo.position; Demo.position; Demo.position])).
Proof.
  apply (pipeline_preprocess_positions (λ _ : option ROI.Img, mret tt) 4 [3]
           [Demo.position; Demo.position; Demo.position; Demo.position] 3).
  - repeat constructor.
  - simpl. lia.
Defined.

(** *** [Position.track] *)

Lemma for_fold_app {S X B : Type} (body : B → X → M S B) (acc : B)
    (xs ys : list X) (s : S) :
  for_fold body acc (xs ++ ys) s
  = (acc' ← for_fold body acc xs; for_fold body acc' ys) s.
Proof.
  revert acc s. induction xs as [|x xs IH]; intros acc s; [done|].
  cbn [app for_fold]. unfold mbind, bind.
  destruct (body acc x s) as [[acc1|e] s1]; [|done]. apply IH.
Qed.

Lemma insert_middle {Y : Type} (l1 l2 : list Y) (x y : Y) :
  <[length l1 := x]> (l1 ++ y :: l2) = l1 ++ x :: l2.
Proof.
  rewrite <-(Nat.add_0_r (length l1)). by rewrite insert_app_r.
Qed.

Section Track.
Context {X : Type} (utils : ROI.utilities X).

Lemma run_get_tracking_inputs_short (roi : ROI.t) (f : nat) :
  length (seg_stack roi) ≤ f →
  get_tracking_inputs utils (Some f) roi
  = (Raised (segmentation_incomplete f), roi).
Proof.
  intros Hlen. unfold get_tracking_inputs.
  rewrite (run_bind get _ roi roi roi) by done. simpl.
  by rewrite bool_decide_true.
Qed.

Lemma run_get_tracking_inputs_degenerate (roi : ROI.t) (f : nat)
    (mask : Mask) :
  seg_stack roi !! f = Some (Some mask) →
  no_previous_cells (Lineage.cellnumbers (lineage roi)) f = true →
  (get_tracking_inputs utils (Some f) roi).1 = Returned (None, None).
Proof.
  intros Hmask Hprev. unfold get_tracking_inputs.
  rewrite (run_bind get _ roi roi roi) by done. cbn [default from_option id].
  rewrite bool_decide_false by (apply lookup_lt_Some in Hmask; lia).
  rewrite Hprev, (run_bind _ _ _ _ _ (run_array _ _ _ roi Hmask)).
  set (poles := getpoles utils mask None (scaling roi)).
  destruct (run_for_each (λ _, True)
              (λ c l, Lineage.registerOrphan f
                        (default ([] : Lineage.Pole) (poles !! c))
                        (Lineage.ensure_frame f l))
              (λ c, p ← index poles c; Lineage.update None f [c] [p])
              (seq 0 (length poles))) with (s := lineage roi) as [Hrun _];
    [|done|].
  { intros c l0 Hc _. split; [|done]. apply elem_of_seq in Hc.
    destruct (lookup_lt_is_Some_2 poles c ltac:(lia)) as [p Hp].
    rewrite (run_bind _ _ _ _ _ (run_index _ _ _ l0 Hp)). cbv beta.
    by rewrite Hp. }
  erewrite run_bind; [reflexivity|]. by apply run_zoom.
Qed.

(** The compilation loop on the regions [todo], after the regions [done_]
    and before the regions [rest]. *)
Lemma run_compile_tracking_from (f : nat) (todo done_ rest : list ROI.t)
    (acc : list (list X)
           * list (nat * nat * nat * option (list (Box * Box)))) :
  Forall (λ roi, ∃ v, (get_tracking_inputs utils (Some f) roi).1 = Returned v)
    todo →
  ∃ acc',
    for_fold
      (λ acc r,
         ib ← on_item r (get_tracking_inputs utils (Some f));
         match ib.1 with
         | Some inputs =>
             mret (acc.1 ++ [inputs], acc.2 ++ [(r, length inputs, f, ib.2)])
         | None => mret acc
         end)
      acc (seq (length done_) (length todo)) (done_ ++ todo ++ rest)
    = (Returned acc',
       done_
       ++ ((λ roi, (get_tracking_inputs utils (Some f) roi).2) <$> todo)
       ++ rest)
    ∧ (Forall (λ roi, (get_tracking_inputs utils (Some f) roi).1
                      = Returned (None, None)) todo →
       acc' = acc).
Proof.
  intros Htodo. revert done_ acc.
  induction Htodo as [|roi todo [v Hv] _ IH]; intros done_ acc.
  { exists acc. by split. }
  assert (get_tracking_inputs utils (Some f) roi
          = (Returned v, (get_tracking_inputs utils (Some f) roi).2)) as Hroi.
  { destruct (get_tracking_inputs utils (Some f) roi). simpl in *. by subst. }
  set (roi' := (get_tracking_inputs utils (Some f) roi).2) in *.
  set (acc1 := match v.1 with
               | Some inputs =>
                   (acc.1 ++ [inputs],
                    acc.2 ++ [(length done_, length inputs, f, v.2)])
               | None => acc
               end).
  destruct (IH (done_ ++ [roi']) acc1) as (acc' & Hrun & Hnone).
  rewrite length_app, Nat.add_1_r, <-!app_assoc in Hrun.
  exists acc'. split.
  - cbn [length seq]. rewrite fmap_cons. fold roi'.
    erewrite run_for_fold_cons; [exact Hrun|].
    erewrite run_bind.
    2:{ apply (run_on_item _ _ _ roi roi'); [|exact Hroi].
        by apply list_lookup_middle. }
    cbn [app]. rewrite insert_middle. unfold acc1. by destruct v.1.
  - intros Hall. apply Forall_cons in Hall as [Hhd Htl].
    rewrite Hv in Hhd. injection Hhd as ->.
    by rewrite (Hnone Htl).
Qed.

(** X16.  A frame in which no region has previous cells (the first frame,
    for one), with the masks of the frame stored: [track] does not call the
    tracking model, whatever the model the regions end as
    [get_tracking_inputs] leaves them, and nothing is raised. *)
Theorem track_frame_without_inputs (predict : list X → list Img) (f : nat)
    (rois : list ROI.t) :
  Forall (λ roi, (∃ mask, seg_stack roi !! f = Some (Some mask))
                 ∧ no_previous_cells (Lineage.cellnumbers (lineage roi)) f
                   = true) rois →
  track_frame utils predict f rois
  = (Returned tt,
     (λ roi, (get_tracking_inputs utils (Some f) roi).2) <$> rois).
Proof.
  intros Hrois.
  assert (Forall (λ roi, (get_tracking_inputs utils (Some f) roi).1
                         = Returned (None, None)) rois) as Hnone.
  { eapply Forall_impl; [exact Hrois|]. intros roi [[mask Hmask] Hprev].
    by eapply run_get_tracking_inputs_degenerate. }
  destruct (run_compile_tracking_from f rois [] [] ([], [])) as (acc & Hrun & Hacc).
  { eapply Forall_impl; [exact Hnone|]. intros roi ->. eauto. }
  rewrite (Hacc Hnone), !app_nil_r in Hrun. cbn [app length] in Hrun.
  unfold track_frame, compile_tracking.
  erewrite run_bind.
  2:{ rewrite (run_bind get _ rois rois rois) by done. exact Hrun. }
  reflexivity.
Qed.

(** X17.  When the masks of a region do not reach the frame, [track] raises
    the "Segmentation incomplete" error of that region as soon as it comes
    to it: the regions before it are as [get_tracking_inputs] left them,
    that region and the regions after it are untouched, and the tracking
    model is not called for the frame. *)
Theorem track_frame_incomplete (predict : list X → list Img) (f : nat)
    (pre post : list ROI.t) (roi : ROI.t) (frames : list nat) :
  Forall (λ roi, ∃ v, (get_tracking_inputs utils (Some f) roi).1 = Returned v)
    pre →
  length (seg_stack roi) ≤ f →
  let raised :=
    (Raised (segmentation_incomplete f),
     ((λ roi, (get_tracking_inputs utils (Some f) roi).2) <$> pre)
     ++ roi :: post) in
  track_frame utils predict f (pre ++ roi :: post) = raised
  ∧ track utils predict (f :: frames) (pre ++ roi :: post) = raised.
Proof.
  intros Hpre Hroi raised.
  assert (track_frame utils predict f (pre ++ roi :: post) = raised) as Hrun.
  { unfold track_frame, compile_tracking. apply run_bind_raised.
    rewrite (run_bind get _ _ _ _ eq_refl).
    rewrite length_app. cbn [length]. rewrite seq_app. cbn [seq Nat.add].
    rewrite for_fold_app.
    destruct (run_compile_tracking_from f pre [] (roi :: post) ([], []) Hpre)
      as (acc & Hacc & _).
    cbn [app length] in Hacc. rewrite (run_bind _ _ _ _ _ Hacc).
    apply run_for_fold_cons_raised, run_bind_raised.
    erewrite run_on_item.
    - rewrite list_insert_id; [reflexivity|].
      apply list_lookup_middle. by rewrite length_fmap.
    - apply list_lookup_middle. by rewrite length_fmap.
    - by apply run_get_tracking_inputs_short. }
  split; [done|]. unfold track. cbn [for_each]. by apply run_bind_raised.
Qed.

End Track.

(** *** The first loop of [Position.segment] *)

Section Segment.
Context {X : Type} (utils : ROI.utilities X).

(** The region after the images [imgs] were compiled for it. *)
Local Abbreviation pushed imgs roi :=
  (set_img_stack
     (img_stack roi
      ++ ((λ img, rangescale utils (cropbox utils img (box roi))) <$> imgs))
     roi).

Lemma run_get_segmentation_inputs (img : Img) (roi : ROI.t) :
  ∃ x windows,
    get_segmentation_inputs utils img roi
    = (Returned (x, windows), pushed [img] roi).
Proof.
  unfold get_segmentation_inputs.
  rewrite (run_bind get _ roi roi roi) by done.
  erewrite (run_bind (modify _) _ roi _ tt) by reflexivity.
  destruct (crop_windows roi); eauto.
Qed.

(** The loop over the regions for one image. *)
Lemma run_compile_segmentation_frame (f : nat) (img : Img)
    (todo done_ : list ROI.t)
    (acc : list (list Img)
           * list (nat * nat * nat
                   * option (list (nat * nat) * list (nat * nat)))) :
  ∃ xs refs,
    for_fold
      (λ acc r,
         iw ← on_item r (get_segmentation_inputs utils img);
         mret (acc.1 ++ [iw.1], acc.2 ++ [(r, length iw.1, f, iw.2)]))
      acc (seq (length done_) (length todo)) (done_ ++ todo)
    = (Returned (acc.1 ++ xs, acc.2 ++ refs),
       done_ ++ ((λ roi, pushed [img] roi) <$> todo))
    ∧ Forall2 (λ x ref, ref.1.1.2 = length x) xs refs
    ∧ (λ ref, (ref.1.1.1, ref.1.2)) <$> refs
      = (λ r, (r, f)) <$> seq (length done_) (length todo).
Proof.
  revert done_ acc. induction todo as [|roi todo IH]; intros done_ acc.
  { exists [], []. rewrite !app_nil_r. by destruct acc. }
  destruct (run_get_segmentation_inputs img roi) as (x & w & Hroi).
  destruct (IH (done_ ++ [pushed [img] roi])
              (acc.1 ++ [x], acc.2 ++ [(length done_, length x, f, w)]))
    as (xs & refs & Hrun & Hlen & Hrefs).
  cbn [fst snd] in Hrun.
  rewrite length_app, Nat.add_1_r, <-!app_assoc in Hrun.
  rewrite length_app, Nat.add_1_r in Hrefs. cbn [app] in Hrun.
  exists (x :: xs), ((length done_, length x, f, w) :: refs).
  split; [|split].
  - cbn [length seq]. rewrite fmap_cons.
    erewrite run_for_fold_cons; [exact Hrun|].
    erewrite run_bind.
    2:{ apply (run_on_item _ _ _ roi (pushed [img] roi)); [|exact Hroi].
        by apply list_lookup_middle. }
    by rewrite insert_middle.
  - by constructor.
  - cbn [length seq]. rewrite !fmap_cons. by rewrite Hrefs.
Qed.

(** The loop over the frames, each with its number. *)
Lemma run_compile_segmentation_frames (fimgs : list (nat * Img))
    (rois : list ROI.t)
    (acc : list (list Img)
           * list (nat * nat * nat
                   * option (list (nat * nat) * list (nat * nat)))) :
  ∃ xs refs,
    for_fold
      (λ acc (fimg : nat * Img),
         rois ← @get (list ROI.t);
         for_fold
           (λ acc r,
              iw ← on_item r (get_segmentation_inputs utils fimg.2);
              mret (acc.1 ++ [iw.1],
                    acc.2 ++ [(r, length iw.1, fimg.1, iw.2)]))
           acc (seq 0 (length rois)))
      acc fimgs rois
    = (Returned (acc.1 ++ xs, acc.2 ++ refs),
       (λ roi, pushed (fimgs.*2) roi) <$> rois)
    ∧ Forall2 (λ x ref, ref.1.1.2 = length x) xs refs
    ∧ (λ ref, (ref.1.1.1, ref.1.2)) <$> refs
      = flat_map (λ fimg, (λ r, (r, fimg.1)) <$> seq 0 (length rois)) fimgs.
Proof.
  revert rois acc. induction fimgs as [|[f img] fimgs IH]; intros rois acc.
  { exists [], []. rewrite !app_nil_r. split; [|done].
    cbn [for_fold]. unfold mret, ret. f_equal; [by destruct acc|].
    symmetry. etrans; [|apply list_fmap_id]. apply list_fmap_ext.
    intros _ roi _. cbn [fmap list_fmap]. rewrite app_nil_r.
    by destruct roi. }
  destruct (run_compile_segmentation_frame f img rois [] acc)
    as (xs1 & refs1 & Hrun1 & Hlen1 & Hrefs1).
  cbn [app length] in Hrun1, Hrefs1.
  destruct (IH ((λ roi, pushed [img] roi) <$> rois)
              (acc.1 ++ xs1, acc.2 ++ refs1))
    as (xs2 & refs2 & Hrun2 & Hlen2 & Hrefs2).
  cbn [fst snd] in Hrun2. rewrite <-!app_assoc in Hrun2.
  rewrite ?length_fmap in Hrun2. rewrite ?length_fmap in Hrefs2.
  exists (xs1 ++ xs2), (refs1 ++ refs2). split; [|split].
  - erewrite run_for_fold_cons; [rewrite Hrun2|].
    + f_equal. rewrite <-list_fmap_compose. apply list_fmap_ext.
      intros _ roi _. cbn [compose fmap list_fmap fst snd].
      cbn [img_stack set_img_stack box]. by rewrite <-app_assoc.
    + rewrite (run_bind get _ rois rois rois) by done. exact Hrun1.
  - by apply Forall2_app.
  - rewrite fmap_app, Hrefs1, Hrefs2. done.
Qed.

Lemma imap_pair_snd {Y : Type} (l : list Y) : (imap pair l).*2 = l.
Proof.
  apply list_eq. intros i.
  rewrite list_lookup_fmap, list_lookup_imap. by destruct (l !! i).
Qed.

(** X19.  The first loop of [segment] always returns.  Every region gets
    the cropped and scaled images of the batch appended to its image stack,
    in the order of the frames, and nothing else of it changes; there is
    one reference per frame and region, frame by frame and region by region,
    numbered by the place of the frame in the batch; and every reference
    records the length of the inputs compiled for it. *)
Theorem compile_segmentation_references (trans_frames : list Img)
    (rois : list ROI.t) :
  ∃ xs refs,
    compile_segmentation utils trans_frames rois
    = (Returned (xs, refs), (λ roi, pushed trans_frames roi) <$> rois)
    ∧ Forall2 (λ x ref, ref.1.1.2 = length x) xs refs
    ∧ (λ ref, (ref.1.1.1, ref.1.2)) <$> refs
      = flat_map (λ fimg, (λ r, (r, fimg.1)) <$> seq 0 (length rois))
          (imap pair trans_frames)
    ∧ length refs = length trans_frames * length rois.
Proof.
  destruct (run_compile_segmentation_frames (imap pair trans_frames) rois
              ([], []))
    as (xs & refs & Hrun & Hlen & Hrefs).
  rewrite imap_pair_snd in Hrun. cbn [fst snd app] in Hrun.
  exists xs, refs. split; [exact Hrun|]. split; [done|]. split; [done|].
  apply (f_equal length) in Hrefs. rewrite length_fmap in Hrefs.
  rewrite Hrefs, <-(length_imap pair trans_frames). clear.
  induction (imap pair trans_frames) as [|fimg fimgs IH]; [done|].
  cbn [flat_map]. rewrite length_app, length_fmap, length_seq, IH.
  simpl. lia.
Qed.

End Segment.

Lemma track_frame_without_inputs_witness :
  track_frame Demo.utils (λ _, []) 0 [Demo.roi; Fixtures.tracked]
  = (Returned tt,
     (λ roi, (get_tracking_inputs Demo.utils (Some 0) roi).2)
       <$> [Demo.roi; Fixtures.tracked]).
Proof.
  apply (track_frame_without_inputs Demo.utils (λ _, []) 0
           [Demo.roi; Fixtures.tracked]).
  repeat constructor; by eexists.
Defined.

Lemma track_frame_incomplete_witness :
  let raised :=
    (Raised (segmentation_incomplete 1),
     ((λ roi, (get_tracking_inputs Demo.utils (Some 1) roi).2) <$> [Demo.roi])
     ++ Fixtures.fresh :: [Fixtures.tracked]) in
  track_frame Demo.utils (λ _, []) 1
    ([Demo.roi] ++ Fixtures.fresh :: [Fixtures.tracked]) = raised
  ∧ track Demo.utils (λ _, []) (1 :: [2])
      ([Demo.roi] ++ Fixtures.fresh :: [Fixtures.tracked]) = raised.
Proof.
  apply (track_frame_incomplete Demo.utils (λ _, []) 1 [Demo.roi]
           [Fixtures.tracked] Fixtures.fresh [2]).
  - repeat constructor. eexists. vm_compute. reflexivity.
  - simpl. lia.
Defined.

End BatchFacts.
